(** * Actor dependency graph of [leapp.snactor.commands.discover]

    A shallow embedding of [RepositoryGraph], [construct_graph_from_actors]
    and the DOT serializer, with the properties stated about them.

    Python data is modelled as follows.
    - [str] is [string]; a [set] of strings is a [gset string]; a [dict]
      keyed by strings is a [gmap string _].
    - A [defaultdict] read [d[k]] returns the stored value, or stores the
      factory's empty value under [k] and returns it: [dd_get] returns the value
      together with the dictionary after the read.
    - Iterating a [set] of strings has no order fixed by the language (string
      hashes are salted per process).  The model iterates in the order of
      [elements] and [map_to_list]; the properties below are stated on
      sets, maps and membership, so they do not depend on that choice.
    - The [while] loops of the three scans are modelled with fuel; the
      public scan functions supply a bound computed from the graph, and are
      proved to return a result for every input. *)

From stdpp Require Import gmap strings list fin_maps fin_sets pretty sorting.

Set Default Proof Using "Type".
Set Warnings "-clear-no-such-hyp".

(** ** Data model *)

(** [defaultdict.__getitem__]: value read, and the dictionary afterwards. *)
Definition dd_get {V : Type} `{Empty V} (d : gmap string V) (k : string)
  : V * gmap string V :=
  match d !! k with
  | Some v => (v, d)
  | None => (∅, <[k := ∅]> d)
  end.

(** The value a [defaultdict] holds for a key, an absent key read as the
    factory's empty value. *)
Definition dd_val {V : Type} `{Empty V} (d : gmap string V) (k : string) : V :=
  default ∅ (d !! k).

(** [RepositoryGraph]: [edges] is source -> target -> message types,
    [reverse_edges] is target -> sources, [actors] is the node set. *)
Record RepositoryGraph := mkGraph {
  edges : gmap string (gmap string (gset string));
  reverse_edges : gmap string (gset string);
  actors : gset string
}.

(** [RepositoryGraph.__init__] *)
Definition new_graph : RepositoryGraph :=
  {| edges := ∅; reverse_edges := ∅; actors := ∅ |}.

(** [RepositoryGraph.add_edge] *)
Definition add_edge (g : RepositoryGraph) (source_actor msg target_actor : string)
  : RepositoryGraph :=
  let actors1 := {[source_actor]} ∪ actors g in
  let actors2 := {[target_actor]} ∪ actors1 in
  let '(targets, edges1) := dd_get (edges g) source_actor in
  let '(msgs, targets1) := dd_get targets target_actor in
  let edges2 := <[source_actor := <[target_actor := {[msg]} ∪ msgs]> targets1]> edges1 in
  let '(sources, reverse1) := dd_get (reverse_edges g) target_actor in
  let reverse2 := <[target_actor := {[source_actor]} ∪ sources]> reverse1 in
  {| edges := edges2; reverse_edges := reverse2; actors := actors2 |}.

(** [RepositoryGraph.iter_edges]: the triples (source, message, target). *)
Definition iter_edges (g : RepositoryGraph) : list (string * string * string) :=
  '(source_actor, target_actors) ← map_to_list (edges g);
  '(target_actor, edge_msgs) ← map_to_list (target_actors : gmap string (gset string));
  edge_msg ← elements (edge_msgs : gset string);
  [(source_actor, edge_msg, target_actor)].

(** The label set stored for the ordered pair (p, c), if the pair has an
    entry in the forward map. *)
Definition edge_labels (g : RepositoryGraph) (p c : string) : option (gset string) :=
  edges g !! p ≫= (λ targets, targets !! c).

(** ** Graph builder *)

(** What the builder reads of an actor definition: [class_name], and the
    [__name__] of each model in [produces] and [consumes] (tuples). *)
Record ActorDefinition := mkActor {
  class_name : string;
  produces : list string;
  consumes : list string
}.

(** [table[msg_type].add(actor_name)] on a [defaultdict(set)]. *)
Definition table_add (table : gmap string (gset string)) (msg_type actor_name : string)
  : gmap string (gset string) :=
  let '(names, table1) := dd_get table msg_type in
  <[msg_type := {[actor_name]} ∪ names]> table1.

(** The first loop of [construct_graph_from_actors]: the pair
    (producers_table, consumers_table). *)
Definition build_tables (actor_definitions : list ActorDefinition)
  : gmap string (gset string) * gmap string (gset string) :=
  fold_left
    (λ '(producers_table, consumers_table) actor_def,
       let actor_name := class_name actor_def in
       (fold_left (λ t msg_type, table_add t msg_type actor_name)
                  (produces actor_def) producers_table,
        fold_left (λ t msg_type, table_add t msg_type actor_name)
                  (consumes actor_def) consumers_table))
    actor_definitions (∅, ∅).

Definition producers_table (defs : list ActorDefinition) := (build_tables defs).1.
Definition consumers_table (defs : list ActorDefinition) := (build_tables defs).2.

(** [construct_graph_from_actors].  The tables are read with [dd_val]: every
    key read is in [spoken_messages], hence present in both tables. *)
Definition construct_graph_from_actors (actor_definitions : list ActorDefinition)
  : RepositoryGraph :=
  let '(producers_table, consumers_table) := build_tables actor_definitions in
  let spoken_messages : gset string := dom producers_table ∩ dom consumers_table in
  fold_left
    (λ graph msg_type,
       let consumers := dd_val consumers_table msg_type in
       let producers := dd_val producers_table msg_type in
       fold_left (λ graph '(consumer, producer), add_edge graph producer msg_type consumer)
                 (list_prod (elements consumers) (elements producers)) graph)
    (elements spoken_messages) new_graph.

(** ** Seed classification and the reachability scans *)

(** [RepositoryGraph._collect_actors_for_entities]: the pair
    (forward_actors, backward_actors). *)
Definition _collect_actors_for_entities (g : RepositoryGraph) (leapp_entities : list string)
  : gset string * gset string :=
  fold_left
    (λ '(forward_actors, backward_actors) leapp_entity,
       if decide (leapp_entity ∈ actors g) then
         ({[leapp_entity]} ∪ forward_actors, {[leapp_entity]} ∪ backward_actors)
       else
         let msg_type := leapp_entity in
         fold_left
           (λ acc '((source_actor, target_actors) : string * gmap string (gset string)),
              fold_left
                (λ '(forward_actors, backward_actors) '((target_actor, msgs) : string * gset string),
                   if decide (msg_type ∈ msgs) then
                     ({[target_actor]} ∪ forward_actors, {[source_actor]} ∪ backward_actors)
                   else (forward_actors, backward_actors))
                (map_to_list target_actors) acc)
           (map_to_list (edges g)) (forward_actors, backward_actors))
    leapp_entities (∅, ∅).

(** [worklist.pop(-1)]: the last element and the list without it. *)
Definition pop_last (worklist : list string) : option (string * list string) :=
  match reverse worklist with
  | [] => None
  | actor :: rest => Some (actor, reverse rest)
  end.

(** The body shared by the inner [for] loops of the scans:
    [if a not in visited_actors: visited_actors.add(a); worklist.append(a)]. *)
Definition visit_new (st : list string * gset string) (a : string)
  : list string * gset string :=
  if decide (a ∈ st.2) then st else (st.1 ++ [a], {[a]} ∪ st.2).

(** The [while worklist:] loop of [_dfs_graph_scan].  The reads
    [self.edges[actor]] and [self.reverse_edges[actor]] go through the
    [defaultdict], so the graph is part of the loop state. *)
Fixpoint dfs_loop (fuel : nat) (g : RepositoryGraph)
    (worklist : list string) (visited_actors : gset string)
  : option (gset string * RepositoryGraph) :=
  match fuel with
  | O => None
  | S fuel' =>
    match pop_last worklist with
    | None => Some (visited_actors, g)
    | Some (actor, worklist0) =>
      let '(targets, edges1) := dd_get (edges g) actor in
      let st1 := fold_left visit_new (map_to_list targets).*1 (worklist0, visited_actors) in
      let '(sources, reverse1) := dd_get (reverse_edges g) actor in
      let st2 := fold_left visit_new (elements sources) st1 in
      dfs_loop fuel' {| edges := edges1; reverse_edges := reverse1; actors := actors g |}
               st2.1 st2.2
    end
  end.

(** The loop of [_forward_scan]. *)
Fixpoint forward_loop (fuel : nat) (g : RepositoryGraph)
    (worklist : list string) (visited_actors : gset string)
  : option (gset string * RepositoryGraph) :=
  match fuel with
  | O => None
  | S fuel' =>
    match pop_last worklist with
    | None => Some (visited_actors, g)
    | Some (actor, worklist0) =>
      let '(targets, edges1) := dd_get (edges g) actor in
      let st1 := fold_left visit_new (map_to_list targets).*1 (worklist0, visited_actors) in
      forward_loop fuel' {| edges := edges1; reverse_edges := reverse_edges g; actors := actors g |}
                   st1.1 st1.2
    end
  end.

(** The loop of [_backward_scan]. *)
Fixpoint backward_loop (fuel : nat) (g : RepositoryGraph)
    (worklist : list string) (visited_actors : gset string)
  : option (gset string * RepositoryGraph) :=
  match fuel with
  | O => None
  | S fuel' =>
    match pop_last worklist with
    | None => Some (visited_actors, g)
    | Some (actor, worklist0) =>
      let '(sources, reverse1) := dd_get (reverse_edges g) actor in
      let st1 := fold_left visit_new (elements sources) (worklist0, visited_actors) in
      backward_loop fuel' {| edges := edges g; reverse_edges := reverse1; actors := actors g |}
                    st1.1 st1.2
    end
  end.

(** Every name stored as a target in the forward map or as a source in
    the reverse index: the names a scan can add to its visited set. *)
Definition stored_neighbours (g : RepositoryGraph) : gset string :=
  ⋃ (dom <$> (map_to_list (edges g)).*2) ∪ ⋃ (map_to_list (reverse_edges g)).*2.

(** Iterations granted to a scan: each one pops one worklist entry, and an
    entry is pushed only when a stored neighbour is first visited. *)
Definition scan_fuel (g : RepositoryGraph) (start_at_actors : gset string) : nat :=
  2 * size (stored_neighbours g) + size start_at_actors + 1.

(** [RepositoryGraph._dfs_graph_scan]: visited set, and the graph after the
    scan's reads. *)
Definition _dfs_graph_scan (g : RepositoryGraph) (start_at_actors : gset string)
  : option (gset string * RepositoryGraph) :=
  dfs_loop (scan_fuel g start_at_actors) g (elements start_at_actors) start_at_actors.

(** [RepositoryGraph._forward_scan] *)
Definition _forward_scan (g : RepositoryGraph) (start_at_actors : gset string)
  : option (gset string * RepositoryGraph) :=
  forward_loop (scan_fuel g start_at_actors) g (elements start_at_actors) start_at_actors.

(** [RepositoryGraph._backward_scan] *)
Definition _backward_scan (g : RepositoryGraph) (start_at_actors : gset string)
  : option (gset string * RepositoryGraph) :=
  backward_loop (scan_fuel g start_at_actors) g (elements start_at_actors) start_at_actors.

(** ** Subgraph extraction *)

(** Lines 191-197 of [make_subgraph_related_to]: [seen_actors], and the
    graph after the scans. *)
Definition seen_actors_for (g : RepositoryGraph) (leapp_entities : list string) (tight : bool)
  : option (gset string * RepositoryGraph) :=
  let '(start_forward_at_actors, start_backward_at_actors) :=
    _collect_actors_for_entities g leapp_entities in
  if tight then
    '(seen_actors, g1) ← _forward_scan g start_forward_at_actors;
    '(seen_back, g2) ← _backward_scan g1 start_backward_at_actors;
    Some (seen_actors ∪ seen_back, g2)
  else
    let start_at_actors := start_forward_at_actors ∪ start_backward_at_actors in
    _dfs_graph_scan g start_at_actors.

(** [resulting_graph.edges[s][t] = set(msgs)] followed by
    [resulting_graph.reverse_edges[t].add(s)]. *)
Definition copy_edge (r : RepositoryGraph) (source_actor target_actor : string)
    (msgs : gset string) : RepositoryGraph :=
  let '(targets, edges1) := dd_get (edges r) source_actor in
  let edges2 := <[source_actor := <[target_actor := msgs]> targets]> edges1 in
  let '(sources, reverse1) := dd_get (reverse_edges r) target_actor in
  let reverse2 := <[target_actor := {[source_actor]} ∪ sources]> reverse1 in
  {| edges := edges2; reverse_edges := reverse2; actors := actors r |}.

(** Lines 199-209 of [make_subgraph_related_to]: the graph restricted to
    [seen_actors]. *)
Definition restrict_to (g : RepositoryGraph) (seen_actors : gset string) : RepositoryGraph :=
  let resulting_graph :=
    fold_left
      (λ r '((source_actor, target_actors) : string * gmap string (gset string)),
         if decide (source_actor ∈ seen_actors) then
           fold_left
             (λ r '((target_actor, msgs) : string * gset string),
                if decide (target_actor ∈ seen_actors) then
                  copy_edge r source_actor target_actor msgs
                else r)
             (map_to_list target_actors) r
         else r)
      (map_to_list (edges g)) new_graph in
  {| edges := edges resulting_graph;
     reverse_edges := reverse_edges resulting_graph;
     actors := seen_actors |}.

(** [RepositoryGraph.make_subgraph_related_to]: the returned graph, and
    [self] after the call. *)
Definition make_subgraph_related_to (g : RepositoryGraph) (leapp_entities : list string)
    (tight : bool) : option (RepositoryGraph * RepositoryGraph) :=
  '(seen_actors, g') ← seen_actors_for g leapp_entities tight;
  Some (restrict_to g' seen_actors, g').

(** ** Serializer *)

Definition nl : string := String (Ascii.ascii_of_nat 10) EmptyString.
Definition dquote : string := String (Ascii.ascii_of_nat 34) EmptyString.

Definition header : string :=
  "digraph " +:+ dquote +:+ "leapp-actors" +:+ dquote +:+ " {" +:+ nl +:+
  "nodesep=2" +:+ nl +:+
  "ranksep=2" +:+ nl +:+
  "rankdir=LR".

Definition footer : string := "}".

(** ['{0} [label={0}]'.format(actor)] *)
Definition node_declaration (actor : string) : string :=
  actor +:+ " [label=" +:+ actor +:+ "]".

(** ['{source} -> {target} [label={msg}]'.format(...)] on a triple of
    [iter_edges]. *)
Definition edge_declaration (e : string * string * string) : string :=
  let '(source, msg_type, target) := e in
  source +:+ " -> " +:+ target +:+ " [label=" +:+ msg_type +:+ "]".

(** [sep.join(items)] *)
Fixpoint join (sep : string) (items : list string) : string :=
  match items with
  | [] => EmptyString
  | [x] => x
  | x :: rest => x +:+ sep +:+ join sep rest
  end.

(** [RepositoryGraph.into_dot] *)
Definition into_dot (g : RepositoryGraph) : string :=
  let node_declarations := node_declaration <$> elements (actors g) in
  let edge_declarations := edge_declaration <$> iter_edges g in
  header +:+ nl +:+ " " +:+ join nl node_declarations +:+ nl +:+ " " +:+
  join nl edge_declarations +:+ nl +:+ " " +:+ footer +:+ nl.

(** ** Views of a graph used in the statements *)

(** Message types on the edge (p, c), no entry read as no label. *)
Definition labels (g : RepositoryGraph) (p c : string) : gset string :=
  dd_val (dd_val (edges g) p) c.

(** Sources recorded for [c] in the reverse index, no entry read as none. *)
Definition preds (g : RepositoryGraph) (c : string) : gset string :=
  dd_val (reverse_edges g) c.

(** Targets recorded for [p] in the forward map, no entry read as none. *)
Definition succs (g : RepositoryGraph) (p : string) : gset string :=
  dom (dd_val (edges g) p).

(** ** Reading a [defaultdict] *)

Section defaultdict.
Context {V : Type} `{Empty V}.
Implicit Types (d : gmap string V) (k : string).

Lemma dd_get_fst d k : (dd_get d k).1 = dd_val d k.
Proof. unfold dd_get, dd_val. by destruct (d !! k). Qed.

Lemma dd_get_snd_val d k k' : dd_val (dd_get d k).2 k' = dd_val d k'.
Proof.
  unfold dd_get, dd_val. destruct (d !! k) eqn:E; simpl; [done|].
  destruct (decide (k = k')) as [->|Hne].
  - by rewrite lookup_insert_eq, E.
  - by rewrite lookup_insert_ne.
Qed.

Lemma dd_get_present d k v : d !! k = Some v → dd_get d k = (v, d).
Proof. unfold dd_get. by intros ->. Qed.

Lemma dd_get_insert d k v : <[k := v]> (dd_get d k).2 = <[k := v]> d.
Proof.
  unfold dd_get. destruct (d !! k); simpl; [done|]. apply insert_insert_eq.
Qed.

Lemma dd_val_insert d k v k' :
  dd_val (<[k := v]> d) k' = if decide (k = k') then v else dd_val d k'.
Proof. unfold dd_val. rewrite lookup_insert. by case_decide. Qed.

Lemma dd_val_empty k : dd_val (∅ : gmap string V) k = ∅.
Proof. unfold dd_val. by rewrite lookup_empty. Qed.
End defaultdict.

(** ** [add_edge] *)

Lemma edges_add_edge g s m t :
  edges (add_edge g s m t) =
  <[s := <[t := {[m]} ∪ labels g s t]> (dd_val (edges g) s)]> (edges g).
Proof.
  unfold add_edge, labels.
  destruct (dd_get (edges g) s) as [targets edges1] eqn:E1.
  destruct (dd_get targets t) as [msgs targets1] eqn:E2.
  destruct (dd_get (reverse_edges g) t) as [sources reverse1] eqn:E3. simpl.
  pose proof (dd_get_fst (edges g) s) as H1. rewrite E1 in H1. simpl in H1. subst targets.
  pose proof (dd_get_fst (dd_val (edges g) s) t) as H2. rewrite E2 in H2. simpl in H2. subst msgs.
  replace targets1 with (dd_get (dd_val (edges g) s) t).2 by by rewrite E2.
  replace edges1 with (dd_get (edges g) s).2 by by rewrite E1.
  by rewrite !dd_get_insert.
Qed.

Lemma reverse_edges_add_edge g s m t :
  reverse_edges (add_edge g s m t) = <[t := {[s]} ∪ preds g t]> (reverse_edges g).
Proof.
  unfold add_edge, preds.
  destruct (dd_get (edges g) s) as [targets edges1] eqn:E1.
  destruct (dd_get targets t) as [msgs targets1] eqn:E2.
  destruct (dd_get (reverse_edges g) t) as [sources reverse1] eqn:E3. simpl.
  pose proof (dd_get_fst (reverse_edges g) t) as H3. rewrite E3 in H3. simpl in H3. subst sources.
  replace reverse1 with (dd_get (reverse_edges g) t).2 by by rewrite E3.
  by rewrite dd_get_insert.
Qed.

Lemma actors_add_edge g s m t :
  actors (add_edge g s m t) = {[t]} ∪ ({[s]} ∪ actors g).
Proof.
  unfold add_edge.
  destruct (dd_get (edges g) s) as [targets edges1].
  destruct (dd_get targets t) as [msgs targets1].
  by destruct (dd_get (reverse_edges g) t) as [sources reverse1].
Qed.

Lemma labels_add_edge g s m t p c :
  labels (add_edge g s m t) p c =
  if decide (s = p ∧ t = c) then {[m]} ∪ labels g p c else labels g p c.
Proof.
  unfold labels at 1. rewrite edges_add_edge, dd_val_insert.
  destruct (decide (s = p)) as [->|Hs].
  - rewrite dd_val_insert. destruct (decide (t = c)) as [->|Ht].
    + by rewrite decide_True.
    + by rewrite decide_False by naive_solver.
  - by rewrite decide_False by naive_solver.
Qed.

Lemma preds_add_edge g s m t c :
  preds (add_edge g s m t) c = if decide (t = c) then {[s]} ∪ preds g c else preds g c.
Proof.
  unfold preds at 1. rewrite reverse_edges_add_edge, dd_val_insert.
  by case_decide; subst.
Qed.

Lemma edge_labels_add_edge g s m t p c :
  edge_labels (add_edge g s m t) p c =
  if decide (s = p ∧ t = c) then Some ({[m]} ∪ labels g p c) else edge_labels g p c.
Proof.
  unfold edge_labels. rewrite edges_add_edge, lookup_insert.
  destruct (decide (s = p)) as [->|Hs]; simpl.
  - rewrite lookup_insert. destruct (decide (t = c)) as [->|Ht].
    + rewrite decide_True; done.
    + rewrite decide_False by naive_solver.
      unfold dd_val. by destruct (edges g !! p).
  - rewrite decide_False; [done | naive_solver].
Qed.

(** ** [iter_edges] *)

Lemma labels_edge_labels g p c : labels g p c = default ∅ (edge_labels g p c).
Proof. unfold labels, edge_labels, dd_val. destruct (edges g !! p); simpl; [done|]. by rewrite lookup_empty. Qed.

Lemma elem_of_iter_edges g p m c : (p, m, c) ∈ iter_edges g ↔ m ∈ labels g p c.
Proof.
  unfold iter_edges, labels, dd_val. split.
  - intros Hin. apply list_elem_of_bind in Hin as ([s tm] & Hin & Hs).
    apply list_elem_of_bind in Hin as ([t L] & Hin & Ht).
    apply list_elem_of_bind in Hin as (x & Hin & Hx).
    apply list_elem_of_singleton in Hin. simplify_eq.
    apply elem_of_map_to_list in Hs, Ht. apply elem_of_elements in Hx.
    by rewrite Hs; simpl; rewrite Ht.
  - intros Hm. destruct (edges g !! p) as [tm|] eqn:Ep; simpl in Hm;
      [|rewrite lookup_empty in Hm; set_solver].
    destruct (tm !! c) as [L|] eqn:Ec; simpl in Hm; [|set_solver].
    apply list_elem_of_bind. exists (p, tm). split; [|by apply elem_of_map_to_list].
    apply list_elem_of_bind. exists (c, L). split; [|by apply elem_of_map_to_list].
    apply list_elem_of_bind. exists m. split; [|by apply elem_of_elements].
    by apply list_elem_of_singleton.
Qed.

(** ** The producer and consumer tables *)

Lemma dd_val_table_add t m a m' :
  dd_val (table_add t m a) m' = if decide (m = m') then {[a]} ∪ dd_val t m else dd_val t m'.
Proof.
  unfold table_add. destruct (dd_get t m) as [names t1] eqn:E.
  pose proof (dd_get_fst t m) as H1. rewrite E in H1. simpl in H1. subst names.
  replace t1 with (dd_get t m).2 by by rewrite E.
  by rewrite dd_get_insert, dd_val_insert.
Qed.

Lemma elem_of_fold_table_add (msgs : list string) a t m x :
  x ∈ dd_val (fold_left (λ t msg_type, table_add t msg_type a) msgs t) m ↔
  x ∈ dd_val t m ∨ (x = a ∧ m ∈ msgs).
Proof.
  revert t. induction msgs as [|m0 msgs IH]; intros t; simpl.
  - set_solver.
  - rewrite IH, dd_val_table_add. case_decide; set_solver.
Qed.

(** A name is in a table's entry for [m] exactly when some definition of
    that name lists [m]. *)
Lemma elem_of_build_tables defs p m :
  (p ∈ dd_val (producers_table defs) m ↔
     ∃ d, d ∈ defs ∧ class_name d = p ∧ m ∈ produces d) ∧
  (p ∈ dd_val (consumers_table defs) m ↔
     ∃ d, d ∈ defs ∧ class_name d = p ∧ m ∈ consumes d).
Proof.
  unfold producers_table, consumers_table, build_tables.
  assert (∀ (init : gmap string (gset string) * gmap string (gset string)),
    let r := fold_left
      (λ '(producers_table, consumers_table) actor_def,
         let actor_name := class_name actor_def in
         (fold_left (λ t msg_type, table_add t msg_type actor_name)
                    (produces actor_def) producers_table,
          fold_left (λ t msg_type, table_add t msg_type actor_name)
                    (consumes actor_def) consumers_table)) defs init in
    (p ∈ dd_val r.1 m ↔ p ∈ dd_val init.1 m ∨
       ∃ d, d ∈ defs ∧ class_name d = p ∧ m ∈ produces d) ∧
    (p ∈ dd_val r.2 m ↔ p ∈ dd_val init.2 m ∨
       ∃ d, d ∈ defs ∧ class_name d = p ∧ m ∈ consumes d)) as Hgen.
  { induction defs as [|d defs IH]; intros [P C]; simpl.
    - split; set_solver.
    - specialize (IH (fold_left (λ t msg_type, table_add t msg_type (class_name d)) (produces d) P,
                      fold_left (λ t msg_type, table_add t msg_type (class_name d)) (consumes d) C)).
      simpl in IH. destruct IH as [IH1 IH2]. rewrite IH1, IH2, !elem_of_fold_table_add.
      split; set_solver. }
  specialize (Hgen (∅, ∅)). simpl in Hgen. rewrite !dd_val_empty in Hgen.
  destruct Hgen as [H1 H2]. rewrite H1, H2. split; set_solver.
Qed.

Lemma dd_val_elem_dom (t : gmap string (gset string)) m x : x ∈ dd_val t m → m ∈ dom t.
Proof.
  unfold dd_val. intros Hx. apply elem_of_dom.
  destruct (t !! m); [done | set_solver].
Qed.

(** ** The edge-adding loops of the builder *)

Lemma labels_fold_product g m (l : list (string * string)) p c m' :
  m' ∈ labels (fold_left (λ graph '(consumer, producer), add_edge graph producer m consumer) l g) p c ↔
  m' ∈ labels g p c ∨ (m' = m ∧ (c, p) ∈ l).
Proof.
  revert g. induction l as [|[c0 p0] l IH]; intros g; simpl.
  - set_solver.
  - rewrite IH, labels_add_edge. case_decide; set_solver.
Qed.

Lemma labels_construct_loop (PT CT : gmap string (gset string)) (ms : list string) g p c m :
  m ∈ labels (fold_left
    (λ graph msg_type,
       let consumers := dd_val CT msg_type in
       let producers := dd_val PT msg_type in
       fold_left (λ graph '(consumer, producer), add_edge graph producer msg_type consumer)
                 (list_prod (elements consumers) (elements producers)) graph) ms g) p c ↔
  m ∈ labels g p c ∨ (m ∈ ms ∧ c ∈ dd_val CT m ∧ p ∈ dd_val PT m).
Proof.
  revert g. induction ms as [|m0 ms IH]; intros g; simpl.
  - set_solver.
  - rewrite IH, labels_fold_product, <- list_cprod_list_prod, list_elem_of_cprod.
    simpl. rewrite !elem_of_elements. set_solver.
Qed.

Lemma labels_new_graph p c : labels new_graph p c = ∅.
Proof. unfold labels. simpl. by rewrite !dd_val_empty. Qed.

(** The built graph has the triple (p, m, c) exactly when [p] is in the
    producer table's entry for [m] and [c] in the consumer table's. *)
Lemma construct_graph_tables defs p m c :
  (p, m, c) ∈ iter_edges (construct_graph_from_actors defs) ↔
  p ∈ dd_val (producers_table defs) m ∧ c ∈ dd_val (consumers_table defs) m.
Proof.
  rewrite elem_of_iter_edges.
  unfold construct_graph_from_actors, producers_table, consumers_table.
  destruct (build_tables defs) as [PT CT]. simpl.
  rewrite labels_construct_loop, labels_new_graph, elem_of_elements, elem_of_intersection.
  split.
  - intros [?|(_ & ? & ?)]; [set_solver | done].
  - intros [? ?]. right. repeat split; eauto using dd_val_elem_dom.
Qed.

(** Without any assumption on names: the triple is an edge exactly when some
    definition named [p] produces [m] and some definition named [c]
    consumes it. *)
Lemma construct_graph_edges defs p m c :
  (p, m, c) ∈ iter_edges (construct_graph_from_actors defs) ↔
  (∃ dp, dp ∈ defs ∧ class_name dp = p ∧ m ∈ produces dp) ∧
  (∃ dc, dc ∈ defs ∧ class_name dc = c ∧ m ∈ consumes dc).
Proof.
  rewrite construct_graph_tables.
  destruct (elem_of_build_tables defs p m) as [-> _].
  destruct (elem_of_build_tables defs c m) as [_ ->]. done.
Qed.

(** The definition carrying a name: the first one in the list, which is the
    only one when names are unique. *)
Definition descriptor_of (defs : list ActorDefinition) (name : string)
  : option ActorDefinition :=
  List.find (λ d, bool_decide (class_name d = name)) defs.

Lemma descriptor_of_unique defs name d :
  NoDup (class_name <$> defs) →
  descriptor_of defs name = Some d ↔ d ∈ defs ∧ class_name d = name.
Proof.
  unfold descriptor_of. induction defs as [|d0 defs IH]; simpl; intros Hnd.
  - set_solver.
  - apply NoDup_cons in Hnd as [Hnotin Hnd]. case_bool_decide as Hd0.
    + split.
      * intros [= ->]. split; [left | done].
      * intros [Hin Hname]. apply elem_of_cons in Hin as [->|Hin]; [done|].
        exfalso. apply Hnotin. apply list_elem_of_fmap. exists d. split; [congruence | done].
    + rewrite IH by done. split.
      * intros [? ?]. split; [by right | done].
      * intros [Hin Hname]. apply elem_of_cons in Hin as [->|Hin]; [done | done].
  Qed.

(** ** The worklist loop, independently of the graph representation *)

Lemma pop_last_None wl : pop_last wl = None → wl = [].
Proof.
  unfold pop_last. destruct (reverse wl) eqn:E; [|done].
  intros _. apply (f_equal reverse) in E. by rewrite reverse_involutive in E.
Qed.

Lemma pop_last_Some wl a wl0 : pop_last wl = Some (a, wl0) → wl = wl0 ++ [a].
Proof.
  unfold pop_last. destruct (reverse wl) as [|x r] eqn:E; [done|].
  intros [= <- <-]. apply (f_equal reverse) in E.
  by rewrite reverse_involutive, reverse_cons in E.
Qed.

Lemma visit_new_fold_cons (y : string) (cands : list string) wl vis :
  fold_left visit_new (y :: cands) (wl, vis) =
  if decide (y ∈ vis) then fold_left visit_new cands (wl, vis)
  else fold_left visit_new cands (wl ++ [y], {[y]} ∪ vis).
Proof. cbn [fold_left]. unfold visit_new at 2. cbn [fst snd]. by case_decide. Qed.

Lemma visit_new_fold_visited (cands : list string) wl vis :
  (fold_left visit_new cands (wl, vis)).2 = vis ∪ list_to_set cands.
Proof.
  revert wl vis. induction cands as [|x cands IH]; intros wl vis.
  - simpl. set_solver.
  - rewrite visit_new_fold_cons. case_decide; rewrite IH; set_solver.
Qed.

Lemma visit_new_fold_worklist (cands : list string) wl vis x :
  x ∈ (fold_left visit_new cands (wl, vis)).1 → x ∈ wl ∨ x ∈ cands.
Proof.
  revert wl vis. induction cands as [|y cands IH]; intros wl vis.
  - simpl. auto.
  - rewrite visit_new_fold_cons. case_decide; intros Hx; apply IH in Hx; set_solver.
Qed.

Lemma visit_new_fold_kept (cands : list string) wl vis x :
  x ∈ wl → x ∈ (fold_left visit_new cands (wl, vis)).1.
Proof.
  revert wl vis. induction cands as [|y cands IH]; intros wl vis Hx; [done|].
  rewrite visit_new_fold_cons. case_decide; apply IH; set_solver.
Qed.

Lemma visit_new_fold_pending (cands : list string) wl vis x :
  x ∈ cands → x ∈ vis ∨ x ∈ (fold_left visit_new cands (wl, vis)).1.
Proof.
  revert wl vis. induction cands as [|y cands IH]; intros wl vis.
  - set_solver.
  - rewrite visit_new_fold_cons. intros [->|Hx]%elem_of_cons.
    + case_decide; [by left|]. right. apply visit_new_fold_kept. set_solver.
    + case_decide; [by apply IH|].
      destruct (IH (wl ++ [y]) ({[y]} ∪ vis) Hx) as [Hin|Hin]; [|by right].
      apply elem_of_union in Hin as [->%elem_of_singleton|?]; [|by left].
      right. apply visit_new_fold_kept. set_solver.
Qed.

(** Visiting candidates drawn from [U] does not increase the measure
    2 * |U minus visited| + |worklist|. *)
Lemma visit_new_fold_measure (U : gset string) (cands : list string) wl vis :
  (∀ x, x ∈ cands → x ∈ U) →
  2 * size (U ∖ (fold_left visit_new cands (wl, vis)).2)
    + length (fold_left visit_new cands (wl, vis)).1
  ≤ 2 * size (U ∖ vis) + length wl.
Proof.
  revert wl vis. induction cands as [|y cands IH]; intros wl vis HU; [simpl; lia|].
  rewrite visit_new_fold_cons. case_decide as Hy.
  - apply IH. set_solver.
  - etrans; [apply IH; set_solver|].
    rewrite length_app. cbn [length].
    assert (U ∖ vis = {[y]} ∪ U ∖ ({[y]} ∪ vis)) as Heq.
    { apply set_eq. intros z. rewrite elem_of_union, !elem_of_difference, elem_of_union, elem_of_singleton.
      split; [|set_solver]. intros [? ?]. destruct (decide (z = y)); [by left | right; set_solver]. }
    assert (size (U ∖ vis) = 1 + size (U ∖ ({[y]} ∪ vis))) as Hsz.
    { rewrite Heq at 1. rewrite size_union by set_solver. by rewrite size_singleton. }
    lia.
Qed.

Section worklist_scan.
(** [nbrs a]: the names examined, in order, when [a] is popped. *)
Variable nbrs : string → list string.

Fixpoint scan_loop (fuel : nat) (worklist : list string) (visited : gset string)
  : option (gset string) :=
  match fuel with
  | O => None
  | S fuel' =>
    match pop_last worklist with
    | None => Some visited
    | Some (actor, worklist0) =>
      let st := fold_left visit_new (nbrs actor) (worklist0, visited) in
      scan_loop fuel' st.1 st.2
    end
  end.

(** Names reachable from the seeds along [nbrs]. *)
Inductive reach (seeds : gset string) : string → Prop :=
| reach_seed a : a ∈ seeds → reach seeds a
| reach_step a b : reach seeds a → b ∈ nbrs a → reach seeds b.

Lemma scan_loop_terminates (U : gset string) fuel wl vis :
  (∀ a b, b ∈ nbrs a → b ∈ U) →
  2 * size (U ∖ vis) + length wl < fuel →
  is_Some (scan_loop fuel wl vis).
Proof using Type.
  intros HU. revert wl vis. induction fuel as [|fuel IH]; intros wl vis Hlt; [lia|].
  simpl. destruct (pop_last wl) as [[a wl0]|] eqn:Ep; [|by eexists].
  apply pop_last_Some in Ep. subst wl. rewrite length_app in Hlt. simpl in Hlt.
  apply IH.
  pose proof (visit_new_fold_measure U (nbrs a) wl0 vis (HU a)) as Hm. lia.
Qed.

(** The loop invariant: seeds are visited, the worklist holds visited
    names, a visited name off the worklist has all its neighbours visited,
    and every visited name is reachable. *)
Definition scan_inv (seeds : gset string) (wl : list string) (vis : gset string) : Prop :=
  seeds ⊆ vis ∧
  (∀ a, a ∈ wl → a ∈ vis) ∧
  (∀ a, a ∈ vis → a ∈ wl ∨ ∀ b, b ∈ nbrs a → b ∈ vis) ∧
  (∀ a, a ∈ vis → reach seeds a).

Lemma scan_loop_inv seeds fuel wl vis v :
  scan_inv seeds wl vis →
  scan_loop fuel wl vis = Some v →
  scan_inv seeds [] v.
Proof using Type.
  revert wl vis. induction fuel as [|fuel IH]; intros wl vis Hinv; [done|].
  simpl. destruct (pop_last wl) as [[a wl0]|] eqn:Ep.
  - apply pop_last_Some in Ep. subst wl. apply IH.
    destruct Hinv as (Hs & Hwl & Hcl & Hr).
    assert (a ∈ vis) as Ha by (apply Hwl; set_solver).
    assert (∀ x, x ∈ vis → x ∈ (fold_left visit_new (nbrs a) (wl0, vis)).1 ∨
              ∀ b, b ∈ nbrs x → b ∈ vis ∪ list_to_set (nbrs a)) as Hold.
    { intros x Hx. destruct (Hcl x Hx) as [Hin|Hn].
      - apply elem_of_app in Hin as [Hin| ->%list_elem_of_singleton].
        + left. by apply visit_new_fold_kept.
        + right. intros b Hb. apply elem_of_union. right. by apply elem_of_list_to_set.
      - right. intros b Hb. apply elem_of_union. left. by apply Hn. }
    rewrite visit_new_fold_visited. repeat split.
    + set_solver.
    + intros x Hx. apply visit_new_fold_worklist in Hx as [Hx|Hx].
      * apply elem_of_union. left. apply Hwl. set_solver.
      * apply elem_of_union. right. by apply elem_of_list_to_set.
    + intros x [Hx|Hx]%elem_of_union; [by apply Hold|].
      apply elem_of_list_to_set in Hx.
      destruct (visit_new_fold_pending (nbrs a) wl0 vis x Hx) as [Hv|Hw]; [|by left].
      by apply Hold.
    + intros x [Hx|Hx]%elem_of_union; [by apply Hr|].
      apply elem_of_list_to_set in Hx.
      eapply reach_step; [by apply Hr | done].
  - intros [= <-]. apply pop_last_None in Ep. by subst wl.
Qed.

Lemma scan_inv_init (seeds : gset string) : scan_inv seeds (elements seeds) seeds.
Proof using Type.
  split; [done|]. split; [|split].
  - intros a Ha. by apply elem_of_elements in Ha.
  - intros a Ha. left. by apply elem_of_elements.
  - intros a Ha. by apply reach_seed.
Qed.

(** A finished scan from the seeds returns exactly the reachable names. *)
Lemma scan_loop_reach seeds fuel v a :
  scan_loop fuel (elements seeds) seeds = Some v →
  a ∈ v ↔ reach seeds a.
Proof using Type.
  intros Hrun.
  destruct (scan_loop_inv seeds _ _ _ _ (scan_inv_init seeds) Hrun) as (Hs & _ & Hcl & Hr).
  split; [apply Hr|].
  induction 1 as [a Ha|a b _ IH Hb]; [by apply Hs|].
  destruct (Hcl a IH) as [Hin|Hn]; [by apply elem_of_nil in Hin | by apply Hn].
Qed.

Lemma reach_inv seeds a :
  reach seeds a → a ∈ seeds ∨ ∃ b, reach seeds b ∧ a ∈ nbrs b.
Proof using Type. destruct 1; eauto. Qed.
End worklist_scan.


Lemma scan_loop_ext (nbrs nbrs' : string → list string) fuel wl vis :
  (∀ a, nbrs a = nbrs' a) → scan_loop nbrs fuel wl vis = scan_loop nbrs' fuel wl vis.
Proof.
  intros Hext. revert wl vis. induction fuel as [|fuel IH]; intros wl vis; [done|].
  simpl. destruct (pop_last wl) as [[a wl0]|]; [|done]. by rewrite Hext, IH.
Qed.

Lemma reach_mono (nbrs nbrs' : string → list string) (seeds seeds' : gset string) a :
  seeds ⊆ seeds' → (∀ x y, y ∈ nbrs x → y ∈ nbrs' x) →
  reach nbrs seeds a → reach nbrs' seeds' a.
Proof.
  intros Hs Hn. induction 1 as [a Ha|a b _ IH Hb].
  - apply reach_seed. set_solver.
  - eapply reach_step; eauto.
Qed.

(** ** What a scan's reads leave behind in the graph *)

(** [d'] is [d] with empty default entries added under some absent keys. *)
Definition dd_extends {V : Type} `{Empty V} (d d' : gmap string V) : Prop :=
  ∀ k, d' !! k = d !! k ∨ (d !! k = None ∧ d' !! k = Some ∅).

(** [g'] is [g] after some [defaultdict] reads of [edges] and
    [reverse_edges]: same node set, same entries, and possibly new entries
    holding the empty default. *)
Definition reads_only (g g' : RepositoryGraph) : Prop :=
  actors g' = actors g ∧
  dd_extends (edges g) (edges g') ∧
  dd_extends (reverse_edges g) (reverse_edges g').

Section dd_extends.
Context {V : Type} `{Empty V}.
Implicit Types (d : gmap string V).

Lemma dd_extends_refl d : dd_extends d d.
Proof. intros k. by left. Qed.

Lemma dd_extends_trans d1 d2 d3 : dd_extends d1 d2 → dd_extends d2 d3 → dd_extends d1 d3.
Proof.
  intros H12 H23 k. destruct (H12 k) as [E12|[E1 E2]], (H23 k) as [E23|[E2' E3]].
  - left. congruence.
  - right. split; congruence.
  - right. split; congruence.
  - congruence.
Qed.

Lemma dd_extends_get d k : dd_extends d (dd_get d k).2.
Proof.
  unfold dd_get. destruct (d !! k) eqn:E; simpl; [apply dd_extends_refl|].
  intros k'. destruct (decide (k = k')) as [<-|Hne].
  - right. by rewrite lookup_insert_eq.
  - left. by rewrite lookup_insert_ne.
Qed.

Lemma dd_extends_val d d' k : dd_extends d d' → dd_val d' k = dd_val d k.
Proof. intros Hext. unfold dd_val. by destruct (Hext k) as [->|[-> ->]]. Qed.
End dd_extends.

Lemma reads_only_refl g : reads_only g g.
Proof. repeat split; apply dd_extends_refl. Qed.

Lemma reads_only_trans g1 g2 g3 : reads_only g1 g2 → reads_only g2 g3 → reads_only g1 g3.
Proof.
  intros (Ha & He & Hr) (Ha' & He' & Hr'). split; [congruence|].
  split; eapply dd_extends_trans; eauto.
Qed.

Lemma reads_only_labels g g' p c : reads_only g g' → labels g' p c = labels g p c.
Proof. intros (_ & He & _). unfold labels. by rewrite (dd_extends_val _ _ p He). Qed.

Lemma reads_only_preds g g' c : reads_only g g' → preds g' c = preds g c.
Proof. intros (_ & _ & Hr). unfold preds. by rewrite (dd_extends_val _ _ c Hr). Qed.

Lemma reads_only_succs g g' p : reads_only g g' → succs g' p = succs g p.
Proof. intros (_ & He & _). unfold succs. by rewrite (dd_extends_val _ _ p He). Qed.

Lemma edge_labels_dd_val g p c : edge_labels g p c = dd_val (edges g) p !! c.
Proof. unfold edge_labels, dd_val. by destruct (edges g !! p). Qed.

Lemma reads_only_edge_labels g g' p c : reads_only g g' → edge_labels g' p c = edge_labels g p c.
Proof. intros (_ & He & _). by rewrite !edge_labels_dd_val, (dd_extends_val _ _ p He). Qed.

(** ** The three scans as instances of the worklist loop *)

Definition forward_nbrs (g : RepositoryGraph) (a : string) : list string :=
  (map_to_list (dd_val (edges g) a)).*1.

Definition backward_nbrs (g : RepositoryGraph) (a : string) : list string :=
  elements (preds g a).

Definition dfs_nbrs (g : RepositoryGraph) (a : string) : list string :=
  forward_nbrs g a ++ backward_nbrs g a.

Lemma elem_of_forward_nbrs g a b : b ∈ forward_nbrs g a ↔ b ∈ succs g a.
Proof.
  unfold forward_nbrs, succs. rewrite elem_of_dom, list_elem_of_fmap. split.
  - intros ([k v] & -> & Hin). apply elem_of_map_to_list in Hin. by exists v.
  - intros [v Hv]. exists (b, v). split; [done|]. by apply elem_of_map_to_list.
Qed.

Lemma elem_of_backward_nbrs g a b : b ∈ backward_nbrs g a ↔ b ∈ preds g a.
Proof. unfold backward_nbrs. apply elem_of_elements. Qed.

Lemma elem_of_dfs_nbrs g a b : b ∈ dfs_nbrs g a ↔ b ∈ succs g a ∨ b ∈ preds g a.
Proof. unfold dfs_nbrs. by rewrite elem_of_app, elem_of_forward_nbrs, elem_of_backward_nbrs. Qed.

Lemma reads_only_forward_nbrs g g' a : reads_only g g' → forward_nbrs g' a = forward_nbrs g a.
Proof. intros (_ & He & _). unfold forward_nbrs. by rewrite (dd_extends_val _ _ a He). Qed.

Lemma reads_only_backward_nbrs g g' a : reads_only g g' → backward_nbrs g' a = backward_nbrs g a.
Proof. intros Hr. unfold backward_nbrs. by rewrite (reads_only_preds _ _ a Hr). Qed.

Lemma reads_only_dfs_nbrs g g' a : reads_only g g' → dfs_nbrs g' a = dfs_nbrs g a.
Proof.
  intros Hr. unfold dfs_nbrs.
  by rewrite (reads_only_forward_nbrs _ _ a Hr), (reads_only_backward_nbrs _ _ a Hr).
Qed.

Ltac use_loop_IH IH :=
  match goal with
  | |- match ?loop ?fuel ?g ?w ?v with _ => _ end => specialize (IH g w v)
  end.

Lemma dfs_loop_scan fuel g wl vis :
  match dfs_loop fuel g wl vis with
  | Some (v, g') => scan_loop (dfs_nbrs g) fuel wl vis = Some v ∧ reads_only g g'
  | None => scan_loop (dfs_nbrs g) fuel wl vis = None
  end.
Proof.
  revert g wl vis. induction fuel as [|fuel IH]; intros g wl vis; [done|].
  cbn [dfs_loop scan_loop].
  destruct (pop_last wl) as [[a wl0]|]; [|split; [done | apply reads_only_refl]].
  pose proof (dd_get_fst (edges g) a) as Hf. pose proof (dd_extends_get (edges g) a) as He.
  destruct (dd_get (edges g) a) as [targets edges1]. simpl in Hf, He. subst targets.
  pose proof (dd_get_fst (reverse_edges g) a) as Hf. pose proof (dd_extends_get (reverse_edges g) a) as Hr.
  destruct (dd_get (reverse_edges g) a) as [sources reverse1]. simpl in Hf, Hr. subst sources.
  assert (fold_left visit_new (dfs_nbrs g a) (wl0, vis)
          = fold_left visit_new (elements (dd_val (reverse_edges g) a))
              (fold_left visit_new (map_to_list (dd_val (edges g) a)).*1 (wl0, vis))) as ->
    by (unfold dfs_nbrs; by rewrite fold_left_app).
  use_loop_IH IH.
  match type of IH with match dfs_loop _ ?g1 _ _ with _ => _ end =>
    assert (reads_only g g1) as H1 by done;
    rewrite (scan_loop_ext (dfs_nbrs g1) (dfs_nbrs g)) in IH
      by (intros; by apply reads_only_dfs_nbrs);
    destruct (dfs_loop fuel g1 _ _) as [[v g']|]; [|done]
  end.
  destruct IH as [-> H2]. split; [done|]. by eapply reads_only_trans.
Qed.

Lemma forward_loop_scan fuel g wl vis :
  match forward_loop fuel g wl vis with
  | Some (v, g') => scan_loop (forward_nbrs g) fuel wl vis = Some v ∧ reads_only g g'
  | None => scan_loop (forward_nbrs g) fuel wl vis = None
  end.
Proof.
  revert g wl vis. induction fuel as [|fuel IH]; intros g wl vis; [done|].
  cbn [forward_loop scan_loop].
  destruct (pop_last wl) as [[a wl0]|]; [|split; [done | apply reads_only_refl]].
  pose proof (dd_get_fst (edges g) a) as Hf. pose proof (dd_extends_get (edges g) a) as He.
  destruct (dd_get (edges g) a) as [targets edges1]. simpl in Hf, He. subst targets.
  change (forward_nbrs g a) with (map_to_list (dd_val (edges g) a)).*1.
  use_loop_IH IH.
  match type of IH with match forward_loop _ ?g1 _ _ with _ => _ end =>
    assert (reads_only g g1) as H1 by (repeat split; [done | apply dd_extends_refl]);
    rewrite (scan_loop_ext (forward_nbrs g1) (forward_nbrs g)) in IH
      by (intros; by apply reads_only_forward_nbrs);
    destruct (forward_loop fuel g1 _ _) as [[v g']|]; [|done]
  end.
  destruct IH as [-> H2]. split; [done|]. by eapply reads_only_trans.
Qed.

Lemma backward_loop_scan fuel g wl vis :
  match backward_loop fuel g wl vis with
  | Some (v, g') => scan_loop (backward_nbrs g) fuel wl vis = Some v ∧ reads_only g g'
  | None => scan_loop (backward_nbrs g) fuel wl vis = None
  end.
Proof.
  revert g wl vis. induction fuel as [|fuel IH]; intros g wl vis; [done|].
  cbn [backward_loop scan_loop].
  destruct (pop_last wl) as [[a wl0]|]; [|split; [done | apply reads_only_refl]].
  pose proof (dd_get_fst (reverse_edges g) a) as Hf. pose proof (dd_extends_get (reverse_edges g) a) as Hr.
  destruct (dd_get (reverse_edges g) a) as [sources reverse1]. simpl in Hf, Hr. subst sources.
  change (backward_nbrs g a) with (elements (dd_val (reverse_edges g) a)).
  use_loop_IH IH.
  match type of IH with match backward_loop _ ?g1 _ _ with _ => _ end =>
    assert (reads_only g g1) as H1 by (repeat split; [apply dd_extends_refl | done]);
    rewrite (scan_loop_ext (backward_nbrs g1) (backward_nbrs g)) in IH
      by (intros; by apply reads_only_backward_nbrs);
    destruct (backward_loop fuel g1 _ _) as [[v g']|]; [|done]
  end.
  destruct IH as [-> H2]. split; [done|]. by eapply reads_only_trans.
Qed.

(** ** The scans return, and return the reachable names *)

Lemma stored_neighbours_succs g a b : b ∈ succs g a → b ∈ stored_neighbours g.
Proof.
  unfold succs, dd_val, stored_neighbours. intros Hb.
  destruct (edges g !! a) as [tm|] eqn:Ea; simpl in Hb; [|set_solver].
  apply elem_of_union. left. apply elem_of_union_list. exists (dom tm). split; [|done].
  apply list_elem_of_fmap. exists tm. split; [done|].
  apply list_elem_of_fmap. exists (a, tm). split; [done|]. by apply elem_of_map_to_list.
Qed.

Lemma stored_neighbours_preds g a b : b ∈ preds g a → b ∈ stored_neighbours g.
Proof.
  unfold preds, dd_val, stored_neighbours. intros Hb.
  destruct (reverse_edges g !! a) as [rs|] eqn:Ea; simpl in Hb; [|set_solver].
  apply elem_of_union. right. apply elem_of_union_list. exists rs. split; [|done].
  apply list_elem_of_fmap. exists (a, rs). split; [done|]. by apply elem_of_map_to_list.
Qed.

Lemma scan_fuel_enough g (seeds : gset string) :
  2 * size (stored_neighbours g ∖ seeds) + length (elements seeds) < scan_fuel g seeds.
Proof.
  unfold scan_fuel.
  assert (size (stored_neighbours g ∖ seeds) ≤ size (stored_neighbours g))
    by (apply subseteq_size; set_solver).
  change (length (elements seeds)) with (size seeds). lia.
Qed.

Lemma dfs_graph_scan_spec g seeds :
  ∃ v g', _dfs_graph_scan g seeds = Some (v, g') ∧ reads_only g g' ∧
          ∀ a, a ∈ v ↔ reach (dfs_nbrs g) seeds a.
Proof.
  unfold _dfs_graph_scan.
  pose proof (dfs_loop_scan (scan_fuel g seeds) g (elements seeds) seeds) as Hsim.
  destruct (scan_loop_terminates (dfs_nbrs g) (stored_neighbours g)
              (scan_fuel g seeds) (elements seeds) seeds) as [v Hv].
  { intros a b [?|?]%elem_of_dfs_nbrs;
      eauto using stored_neighbours_succs, stored_neighbours_preds. }
  { apply scan_fuel_enough. }
  destruct (dfs_loop _ _ _ _) as [[v' g']|]; [|congruence].
  destruct Hsim as [Hs Hr]. exists v', g'. split; [done|]. split; [done|].
  intros a. by eapply scan_loop_reach.
Qed.

Lemma forward_scan_spec g seeds :
  ∃ v g', _forward_scan g seeds = Some (v, g') ∧ reads_only g g' ∧
          ∀ a, a ∈ v ↔ reach (forward_nbrs g) seeds a.
Proof.
  unfold _forward_scan.
  pose proof (forward_loop_scan (scan_fuel g seeds) g (elements seeds) seeds) as Hsim.
  destruct (scan_loop_terminates (forward_nbrs g) (stored_neighbours g)
              (scan_fuel g seeds) (elements seeds) seeds) as [v Hv].
  { intros a b ?%elem_of_forward_nbrs. eauto using stored_neighbours_succs. }
  { apply scan_fuel_enough. }
  destruct (forward_loop _ _ _ _) as [[v' g']|]; [|congruence].
  destruct Hsim as [Hs Hr]. exists v', g'. split; [done|]. split; [done|].
  intros a. by eapply scan_loop_reach.
Qed.

Lemma backward_scan_spec g seeds :
  ∃ v g', _backward_scan g seeds = Some (v, g') ∧ reads_only g g' ∧
          ∀ a, a ∈ v ↔ reach (backward_nbrs g) seeds a.
Proof.
  unfold _backward_scan.
  pose proof (backward_loop_scan (scan_fuel g seeds) g (elements seeds) seeds) as Hsim.
  destruct (scan_loop_terminates (backward_nbrs g) (stored_neighbours g)
              (scan_fuel g seeds) (elements seeds) seeds) as [v Hv].
  { intros a b ?%elem_of_backward_nbrs. eauto using stored_neighbours_preds. }
  { apply scan_fuel_enough. }
  destruct (backward_loop _ _ _ _) as [[v' g']|]; [|congruence].
  destruct Hsim as [Hs Hr]. exists v', g'. split; [done|]. split; [done|].
  intros a. by eapply scan_loop_reach.
Qed.

(** ** Seed classification *)

Lemma collect_targets (msg_type source_actor : string)
    (l : list (string * gset string)) (F B : gset string) :
  let r := fold_left
    (λ '(forward_actors, backward_actors) '((target_actor, msgs) : string * gset string),
       if decide (msg_type ∈ msgs) then
         ({[target_actor]} ∪ forward_actors, {[source_actor]} ∪ backward_actors)
       else (forward_actors, backward_actors)) l (F, B) in
  (∀ x, x ∈ r.1 ↔ x ∈ F ∨ ∃ msgs, (x, msgs) ∈ l ∧ msg_type ∈ msgs) ∧
  (∀ x, x ∈ r.2 ↔ x ∈ B ∨ (x = source_actor ∧ ∃ t msgs, (t, msgs) ∈ l ∧ msg_type ∈ msgs)).
Proof.
  revert F B. induction l as [|[t msgs] l IH]; intros F B; cbn [fold_left].
  - simpl. split; intros x; set_solver.
  - case_decide as Hm.
    + destruct (IH ({[t]} ∪ F) ({[source_actor]} ∪ B)) as [IH1 IH2]. split; intros x.
      * rewrite IH1. set_solver.
      * rewrite IH2. set_solver.
    + destruct (IH F B) as [IH1 IH2]. split; intros x.
      * rewrite IH1. set_solver.
      * rewrite IH2. set_solver.
Qed.

Lemma collect_sources (msg_type : string)
    (l : list (string * gmap string (gset string))) (F B : gset string) :
  let r := fold_left
    (λ acc '((source_actor, target_actors) : string * gmap string (gset string)),
       fold_left
         (λ '(forward_actors, backward_actors) '((target_actor, msgs) : string * gset string),
            if decide (msg_type ∈ msgs) then
              ({[target_actor]} ∪ forward_actors, {[source_actor]} ∪ backward_actors)
            else (forward_actors, backward_actors))
         (map_to_list target_actors) acc) l (F, B) in
  (∀ x, x ∈ r.1 ↔ x ∈ F ∨ ∃ s tm msgs, (s, tm) ∈ l ∧ tm !! x = Some msgs ∧ msg_type ∈ msgs) ∧
  (∀ x, x ∈ r.2 ↔ x ∈ B ∨ ∃ tm t msgs, (x, tm) ∈ l ∧ tm !! t = Some msgs ∧ msg_type ∈ msgs).
Proof.
  revert F B. induction l as [|[s tm] l IH]; intros F B; cbn [fold_left].
  - simpl. split; intros x; set_solver.
  - pose proof (collect_targets msg_type s (map_to_list tm) F B) as Hin. cbn zeta in Hin.
    destruct (fold_left _ (map_to_list tm) (F, B)) as [F1 B1]. destruct Hin as [Hin1 Hin2].
    simpl in Hin1, Hin2. destruct (IH F1 B1) as [IH1 IH2]. split; intros x.
    + rewrite IH1, Hin1. setoid_rewrite elem_of_map_to_list. setoid_rewrite elem_of_cons.
      naive_solver.
    + rewrite IH2, Hin2. setoid_rewrite elem_of_map_to_list. setoid_rewrite elem_of_cons.
      naive_solver.
Qed.

Lemma labels_lookup g p c m :
  m ∈ labels g p c ↔ ∃ tm msgs, edges g !! p = Some tm ∧ tm !! c = Some msgs ∧ m ∈ msgs.
Proof.
  unfold labels, dd_val. split.
  - destruct (edges g !! p) as [tm|]; simpl; [|rewrite lookup_empty; set_solver].
    destruct (tm !! c) as [msgs|] eqn:E; simpl; [|set_solver]. eauto.
  - intros (tm & msgs & -> & Hc & Hm). simpl. by rewrite Hc.
Qed.

(** Exact content of the two seed sets. *)
Lemma collect_actors_spec g ents :
  (∀ x, x ∈ (_collect_actors_for_entities g ents).1 ↔
        ∃ e, e ∈ ents ∧ ((e ∈ actors g ∧ x = e) ∨ (¬ (e ∈ actors g) ∧ ∃ p, e ∈ labels g p x))) ∧
  (∀ x, x ∈ (_collect_actors_for_entities g ents).2 ↔
        ∃ e, e ∈ ents ∧ ((e ∈ actors g ∧ x = e) ∨ (¬ (e ∈ actors g) ∧ ∃ c, e ∈ labels g x c))).
Proof.
  unfold _collect_actors_for_entities.
  assert (∀ F B : gset string,
    let r := fold_left
      (λ '(forward_actors, backward_actors) leapp_entity,
         if decide (leapp_entity ∈ actors g) then
           ({[leapp_entity]} ∪ forward_actors, {[leapp_entity]} ∪ backward_actors)
         else
           let msg_type := leapp_entity in
           fold_left
             (λ acc '((source_actor, target_actors) : string * gmap string (gset string)),
                fold_left
                  (λ '(forward_actors, backward_actors) '((target_actor, msgs) : string * gset string),
                     if decide (msg_type ∈ msgs) then
                       ({[target_actor]} ∪ forward_actors, {[source_actor]} ∪ backward_actors)
                     else (forward_actors, backward_actors))
                  (map_to_list target_actors) acc)
             (map_to_list (edges g)) (forward_actors, backward_actors))
      ents (F, B) in
    (∀ x, x ∈ r.1 ↔ x ∈ F ∨
        ∃ e, e ∈ ents ∧ ((e ∈ actors g ∧ x = e) ∨ (¬ (e ∈ actors g) ∧ ∃ p, e ∈ labels g p x))) ∧
    (∀ x, x ∈ r.2 ↔ x ∈ B ∨
        ∃ e, e ∈ ents ∧ ((e ∈ actors g ∧ x = e) ∨ (¬ (e ∈ actors g) ∧ ∃ c, e ∈ labels g x c)))) as Hgen.
  { induction ents as [|e ents IH]; intros F B; cbn [fold_left].
    - simpl. split; intros x; set_solver.
    - case_decide as He.
      + destruct (IH ({[e]} ∪ F) ({[e]} ∪ B)) as [IH1 IH2]. split; intros x.
        * rewrite IH1. setoid_rewrite elem_of_cons. set_solver.
        * rewrite IH2. setoid_rewrite elem_of_cons. set_solver.
      + pose proof (collect_sources e (map_to_list (edges g)) F B) as Hin. cbn zeta in Hin.
        cbn zeta.
        destruct (fold_left _ (map_to_list (edges g)) (F, B)) as [F1 B1].
        destruct Hin as [Hin1 Hin2]. simpl in Hin1, Hin2.
        destruct (IH F1 B1) as [IH1 IH2]. split; intros x.
        * rewrite IH1, Hin1.
          assert ((∃ s tm msgs, (s, tm) ∈ map_to_list (edges g) ∧ tm !! x = Some msgs ∧ e ∈ msgs)
                  ↔ ∃ p, e ∈ labels g p x) as ->.
          { split.
            - intros (s & tm & msgs & Hs%elem_of_map_to_list & Hx & Hm).
              exists s. apply labels_lookup. eauto.
            - intros (p & (tm & msgs & Hp & Hx & Hm)%labels_lookup).
              exists p, tm, msgs. by rewrite elem_of_map_to_list. }
          split.
          -- intros [[HxF|[p Hp]]|(e0 & He0 & HP)].
             ++ by left.
             ++ right. exists e. split; [left|]. right. eauto.
             ++ right. exists e0. split; [by right | done].
          -- intros [HxF|(e0 & [->|He0]%elem_of_cons & HP)].
             ++ left. by left.
             ++ destruct HP as [[Ha _]|[_ Hp]]; [done|]. left. by right.
             ++ right. eauto.
        * rewrite IH2, Hin2.
          assert ((∃ tm t msgs, (x, tm) ∈ map_to_list (edges g) ∧ tm !! t = Some msgs ∧ e ∈ msgs)
                  ↔ ∃ c, e ∈ labels g x c) as ->.
          { split.
            - intros (tm & t & msgs & Hs%elem_of_map_to_list & Hx & Hm).
              exists t. apply labels_lookup. eauto.
            - intros (c & (tm & msgs & Hp & Hx & Hm)%labels_lookup).
              exists tm, c, msgs. by rewrite elem_of_map_to_list. }
          split.
          -- intros [[HxF|[p Hp]]|(e0 & He0 & HP)].
             ++ by left.
             ++ right. exists e. split; [left|]. right. eauto.
             ++ right. exists e0. split; [by right | done].
          -- intros [HxF|(e0 & [->|He0]%elem_of_cons & HP)].
             ++ left. by left.
             ++ destruct HP as [[Ha _]|[_ Hp]]; [done|]. left. by right.
             ++ right. eauto. }
  destruct (Hgen ∅ ∅) as [H1 H2]. split; intros x.
  - rewrite H1. set_solver.
  - rewrite H2. set_solver.
Qed.

(** ** Restricting a graph to the seen actors *)

Lemma edge_labels_copy_edge r s t msgs p c :
  edge_labels (copy_edge r s t msgs) p c =
  if decide (s = p ∧ t = c) then Some msgs else edge_labels r p c.
Proof.
  unfold copy_edge.
  pose proof (dd_get_fst (edges r) s) as Hf. pose proof (dd_get_insert (edges r) s) as Hi.
  destruct (dd_get (edges r) s) as [targets edges1]. simpl in Hf, Hi. subst targets.
  destruct (dd_get (reverse_edges r) t) as [sources reverse1].
  unfold edge_labels at 1. cbn [edges]. rewrite Hi, lookup_insert.
  destruct (decide (s = p)) as [->|Hs]; simpl.
  - rewrite lookup_insert. destruct (decide (t = c)) as [->|Ht].
    + by rewrite decide_True.
    + rewrite decide_False by naive_solver. by rewrite edge_labels_dd_val.
  - by rewrite decide_False by naive_solver.
Qed.

Lemma preds_copy_edge r s t msgs c :
  preds (copy_edge r s t msgs) c = if decide (t = c) then {[s]} ∪ preds r c else preds r c.
Proof.
  unfold copy_edge.
  destruct (dd_get (edges r) s) as [targets edges1].
  pose proof (dd_get_fst (reverse_edges r) t) as Hf.
  pose proof (dd_get_insert (reverse_edges r) t) as Hi.
  destruct (dd_get (reverse_edges r) t) as [sources reverse1]. simpl in Hf, Hi. subst sources.
  unfold preds at 1. cbn [reverse_edges]. rewrite Hi, dd_val_insert.
  by case_decide; subst.
Qed.

Lemma actors_copy_edge r s t msgs : actors (copy_edge r s t msgs) = actors r.
Proof.
  unfold copy_edge. destruct (dd_get (edges r) s) as [targets edges1].
  by destruct (dd_get (reverse_edges r) t) as [sources reverse1].
Qed.

Lemma restrict_targets (S : gset string) (s : string) (tm : gmap string (gset string))
    (l : list (string * gset string)) (r : RepositoryGraph) :
  (∀ t msgs, (t, msgs) ∈ l → tm !! t = Some msgs) →
  let r' := fold_left
    (λ r '((target_actor, msgs) : string * gset string),
       if decide (target_actor ∈ S) then copy_edge r s target_actor msgs else r) l r in
  (∀ p c X, edge_labels r' p c = Some X ↔
     (p = s ∧ c ∈ S ∧ (c, X) ∈ l) ∨
     (¬ (p = s ∧ c ∈ S ∧ ∃ Y, (c, Y) ∈ l) ∧ edge_labels r p c = Some X)) ∧
  (∀ p c, p ∈ preds r' c ↔ p ∈ preds r c ∨ (p = s ∧ c ∈ S ∧ ∃ Y, (c, Y) ∈ l)) ∧
  actors r' = actors r.
Proof.
  revert r. induction l as [|[t msgs] l IH]; intros r Hfun; cbn [fold_left].
  - simpl. split; [|split; [|done]].
    + intros p c X. set_solver.
    + intros p c. set_solver.
  - assert (∀ t' m', (t', m') ∈ l → tm !! t' = Some m') as Hfun'
      by (intros; apply Hfun; by right).
    assert (tm !! t = Some msgs) as Ht by (apply Hfun; left).
    case_decide as HtS.
    + destruct (IH (copy_edge r s t msgs) Hfun') as (IH1 & IH2 & IH3). split; [|split].
      * intros p c X. rewrite IH1, edge_labels_copy_edge. setoid_rewrite elem_of_cons.
        case_decide as Hd.
        -- destruct Hd as [<- <-].
           assert (∀ Y, (t, Y) ∈ l → Y = msgs) as Hsame
             by (intros Y HY; apply Hfun' in HY; congruence).
           split.
           ++ intros [(_ & _ & Hin)|[_ [= <-]]]; left; eauto.
           ++ intros [(_ & _ & [[= ->]|Hin])|[Hn _]].
              ** destruct (decide (t ∈ l.*1)) as [Hin|Hno].
                 --- apply list_elem_of_fmap in Hin as ([t' Y] & Heq & HY). simpl in Heq. subst t'.
                     left. rewrite <- (Hsame Y HY). eauto.
                 --- right. split; [|done]. intros (_ & _ & Y & HY). apply Hno.
                     apply list_elem_of_fmap. by exists (t, Y).
              ** left. eauto.
              ** exfalso. apply Hn. eauto.
        -- naive_solver.
      * intros p c. rewrite IH2, preds_copy_edge. setoid_rewrite elem_of_cons.
        case_decide; [subst; set_solver | naive_solver].
      * by rewrite IH3, actors_copy_edge.
    + destruct (IH r Hfun') as (IH1 & IH2 & IH3). split; [|split; [|done]].
      * intros p c X. rewrite IH1. setoid_rewrite elem_of_cons. naive_solver.
      * intros p c. rewrite IH2. setoid_rewrite elem_of_cons. naive_solver.
Qed.

Lemma restrict_sources (S : gset string) (g : RepositoryGraph)
    (l : list (string * gmap string (gset string))) (r : RepositoryGraph) :
  (∀ s tm, (s, tm) ∈ l → edges g !! s = Some tm) →
  let r' := fold_left
    (λ r '((source_actor, target_actors) : string * gmap string (gset string)),
       if decide (source_actor ∈ S) then
         fold_left
           (λ r '((target_actor, msgs) : string * gset string),
              if decide (target_actor ∈ S) then
                copy_edge r source_actor target_actor msgs
              else r)
           (map_to_list target_actors) r
       else r) l r in
  (∀ p c X, edge_labels r' p c = Some X ↔
     (p ∈ S ∧ c ∈ S ∧ p ∈ l.*1 ∧ edge_labels g p c = Some X) ∨
     (¬ (p ∈ S ∧ c ∈ S ∧ p ∈ l.*1 ∧ is_Some (edge_labels g p c)) ∧
      edge_labels r p c = Some X)) ∧
  (∀ p c, p ∈ preds r' c ↔
     p ∈ preds r c ∨ (p ∈ S ∧ c ∈ S ∧ p ∈ l.*1 ∧ is_Some (edge_labels g p c))) ∧
  actors r' = actors r.
Proof.
  revert r. induction l as [|[s tm] l IH]; intros r Hfun; cbn [fold_left].
  - simpl. split; [|split; [|done]].
    + intros p c X. set_solver.
    + intros p c. set_solver.
  - assert (∀ s' tm', (s', tm') ∈ l → edges g !! s' = Some tm') as Hfun'
      by (intros; apply Hfun; by right).
    assert (edges g !! s = Some tm) as Hs by (apply Hfun; left).
    assert (∀ c, edge_labels g s c = tm !! c) as Hsc
      by (intros c; unfold edge_labels; by rewrite Hs).
    assert (∀ p, p ∈ ((s, tm) :: l).*1 ↔ p = s ∨ p ∈ l.*1) as Hcons
      by (intros p; rewrite fmap_cons, elem_of_cons; done).
    case_decide as HsS.
    + pose proof (restrict_targets S s tm (map_to_list tm) r) as Hin. cbn zeta in Hin.
      destruct Hin as (Hin1 & Hin2 & Hin3).
      { intros t msgs. by rewrite elem_of_map_to_list. }
      setoid_rewrite elem_of_map_to_list in Hin1.
      setoid_rewrite elem_of_map_to_list in Hin2.
      match type of Hin3 with actors ?r1 = _ =>
        destruct (IH r1 Hfun') as (IH1 & IH2 & IH3) end.
      split; [|split].
      * intros p c X. rewrite IH1, Hin1, Hcons. clear IH1 IH2 IH3 Hin1 Hin2 Hin3 IH.
        destruct (decide (p = s)) as [->|Hne].
        -- rewrite !Hsc. unfold is_Some. split.
           ++ intros [(? & ? & ? & ?)|(Hn & [(_ & ? & ?)|(Hn' & ?)])].
              ** left. eauto.
              ** left. eauto.
              ** right. split; [|done]. intros (? & ? & [_|?] & ?); [apply Hn'|apply Hn]; eauto.
           ++ intros [(? & ? & _ & ?)|(Hn & ?)].
              ** destruct (decide (s ∈ l.*1)); [left; eauto|].
                 right. split; [|left; eauto]. intros (_ & _ & ? & _). done.
              ** right. split; [|right; split; [|done]].
                 --- intros (? & ? & ? & ?). apply Hn. eauto.
                 --- intros (_ & ? & ?). apply Hn. eauto.
        -- naive_solver.
      * intros p c. rewrite IH2, Hin2, Hcons.
        destruct (decide (p = s)) as [->|Hne]; [rewrite !Hsc; unfold is_Some|]; naive_solver.
      * by rewrite IH3, Hin3.
    + destruct (IH r Hfun') as (IH1 & IH2 & IH3). split; [|split; [|done]].
      * intros p c X. rewrite IH1, Hcons. naive_solver.
      * intros p c. rewrite IH2, Hcons. naive_solver.
Qed.

(** The restricted graph keeps exactly the entries of the forward map with
    both ends seen, with their label sets; its reverse index lists exactly
    the sources of kept entries; its node set is the seen set. *)
Lemma restrict_to_spec g (S : gset string) :
  (∀ p c, edge_labels (restrict_to g S) p c =
          if decide (p ∈ S ∧ c ∈ S) then edge_labels g p c else None) ∧
  (∀ p c, p ∈ preds (restrict_to g S) c ↔ p ∈ S ∧ c ∈ S ∧ is_Some (edge_labels g p c)) ∧
  actors (restrict_to g S) = S.
Proof.
  unfold restrict_to.
  pose proof (restrict_sources S g (map_to_list (edges g)) new_graph) as Hr. cbn zeta in Hr.
  destruct Hr as (H1 & H2 & _).
  { intros s tm. by rewrite elem_of_map_to_list. }
  assert (∀ p c, is_Some (edge_labels g p c) → p ∈ (map_to_list (edges g)).*1) as Hkey.
  { intros p c [X HX]. unfold edge_labels in HX.
    destruct (edges g !! p) as [tm|] eqn:Ep; [|done].
    apply list_elem_of_fmap. exists (p, tm). split; [done|]. by apply elem_of_map_to_list. }
  assert (∀ p c, edge_labels new_graph p c = None) as Hnew1
    by (intros; unfold edge_labels; simpl; by rewrite lookup_empty).
  assert (∀ c, preds new_graph c = ∅) as Hnew2
    by (intros; unfold preds; simpl; by rewrite dd_val_empty).
  set (rg := fold_left _ (map_to_list (edges g)) new_graph) in *.
  split; [|split; [|done]].
  - intros p c. apply option_eq. intros X.
    change (edge_labels rg p c = Some X ↔
            (if decide (p ∈ S ∧ c ∈ S) then edge_labels g p c else None) = Some X).
    rewrite H1, Hnew1. case_decide as Hd.
    + split; [naive_solver|]. intros HX. left. naive_solver.
    + naive_solver.
  - intros p c.
    change (p ∈ preds rg c ↔ p ∈ S ∧ c ∈ S ∧ is_Some (edge_labels g p c)).
    rewrite H2, Hnew2. set_solver.
Qed.

(** ** [make_subgraph_related_to] returns *)

Lemma reach_ext (nbrs nbrs' : string → list string) (seeds : gset string) a :
  (∀ x, nbrs x = nbrs' x) → reach nbrs seeds a ↔ reach nbrs' seeds a.
Proof.
  intros Hext. split; apply reach_mono; try done; intros x y; by rewrite Hext.
Qed.

(** The seen set named by the mode: in tight mode the names reachable
    forwards from the forward seeds or backwards from the backward seeds, in
    loose mode the names reachable in either direction from all seeds. *)
Definition seen_in_mode (g : RepositoryGraph) (ents : list string) (tight : bool)
    (a : string) : Prop :=
  let '(F, B) := _collect_actors_for_entities g ents in
  if tight then reach (forward_nbrs g) F a ∨ reach (backward_nbrs g) B a
  else reach (dfs_nbrs g) (F ∪ B) a.

Lemma seen_actors_for_spec g ents tight :
  ∃ S g', seen_actors_for g ents tight = Some (S, g') ∧ reads_only g g' ∧
          ∀ a, a ∈ S ↔ seen_in_mode g ents tight a.
Proof.
  unfold seen_actors_for, seen_in_mode.
  destruct (_collect_actors_for_entities g ents) as [F B]. destruct tight.
  - destruct (forward_scan_spec g F) as (v1 & g1 & -> & Hr1 & Hv1).
    destruct (backward_scan_spec g1 B) as (v2 & g2 & E2 & Hr2 & Hv2).
    simpl. rewrite E2. simpl. exists (v1 ∪ v2), g2.
    split; [done|]. split; [by eapply reads_only_trans|].
    intros a. rewrite elem_of_union, Hv1, Hv2.
    by rewrite (reach_ext (backward_nbrs g1) (backward_nbrs g))
      by (intros; by apply reads_only_backward_nbrs).
  - destruct (dfs_graph_scan_spec g (F ∪ B)) as (v & g' & -> & Hr & Hv). eauto.
Qed.

Lemma make_subgraph_related_to_spec g ents tight :
  ∃ S g', seen_actors_for g ents tight = Some (S, g') ∧
          make_subgraph_related_to g ents tight = Some (restrict_to g' S, g').
Proof.
  destruct (seen_actors_for_spec g ents tight) as (S & g' & E & _).
  exists S, g'. split; [done|]. unfold make_subgraph_related_to. by rewrite E.
Qed.

(** ** Well-formed graphs *)

(** The three invariants of the data model: no entry of the forward map
    holds an empty label set, the node set is the set of edge ends, and the
    reverse index lists exactly the sources of edges. *)
Record graph_wf (g : RepositoryGraph) : Prop := {
  wf_nonempty : ∀ p c L, edge_labels g p c = Some L → L ≠ ∅;
  wf_actors : ∀ a, a ∈ actors g ↔ ∃ p m c, m ∈ labels g p c ∧ (a = p ∨ a = c);
  wf_reverse : ∀ p c, p ∈ preds g c ↔ ∃ m, m ∈ labels g p c
}.

Lemma elem_of_succs g p c : c ∈ succs g p ↔ is_Some (edge_labels g p c).
Proof. unfold succs. by rewrite elem_of_dom, edge_labels_dd_val. Qed.

Lemma labels_is_Some g p c m : m ∈ labels g p c → is_Some (edge_labels g p c).
Proof.
  rewrite labels_edge_labels. destruct (edge_labels g p c); [by eexists | set_solver].
Qed.

Lemma wf_entry_label g p c :
  graph_wf g → is_Some (edge_labels g p c) ↔ ∃ m, m ∈ labels g p c.
Proof.
  intros Hwf. split.
  - intros [L HL]. rewrite labels_edge_labels, HL. simpl.
    apply set_choose_L. by eapply wf_nonempty.
  - intros [m Hm]. by eapply labels_is_Some.
Qed.

Lemma graph_wf_new : graph_wf new_graph.
Proof.
  split.
  - intros p c L. unfold edge_labels. simpl. by rewrite lookup_empty.
  - intros a. simpl. split; [set_solver|].
    intros (p & m & c & Hm & _). rewrite labels_new_graph in Hm. set_solver.
  - intros p c. unfold preds. simpl. rewrite dd_val_empty. split; [set_solver|].
    intros [m Hm]. rewrite labels_new_graph in Hm. set_solver.
Qed.

Lemma graph_wf_add_edge g s m t : graph_wf g → graph_wf (add_edge g s m t).
Proof.
  intros [Hne Hact Hrev]. split.
  - intros p c L. rewrite edge_labels_add_edge. case_decide.
    + intros [= <-]. set_solver.
    + apply Hne.
  - intros a. rewrite actors_add_edge. setoid_rewrite labels_add_edge.
    rewrite !elem_of_union, !elem_of_singleton, Hact. split.
    + intros [->|[->|(p & m' & c & Hm & Ha)]].
      * exists s, m, t. rewrite decide_True by done. set_solver.
      * exists s, m, t. rewrite decide_True by done. set_solver.
      * exists p, m', c. case_decide; set_solver.
    + intros (p & m' & c & Hm & Ha). case_decide as Hd.
      * destruct Hd as [<- <-].
        apply elem_of_union in Hm as [_|Hm]; [naive_solver|].
        right. right. eauto.
      * right. right. eauto.
  - intros p c. rewrite preds_add_edge. setoid_rewrite labels_add_edge.
    case_decide as Ht.
    + subst c. rewrite elem_of_union, elem_of_singleton, Hrev. split.
      * intros [->|[m' Hm']].
        -- exists m. rewrite decide_True by done. set_solver.
        -- exists m'. case_decide; set_solver.
      * intros [m' Hm']. case_decide as Hd; [naive_solver|]. right. eauto.
    + rewrite Hrev. split; intros [m' Hm']; exists m';
        [by rewrite decide_False by naive_solver|].
      by rewrite decide_False in Hm' by naive_solver.
Qed.

Lemma graph_wf_reads_only g g' : graph_wf g → reads_only g g' → graph_wf g'.
Proof.
  intros [Hne Hact Hrev] Hr. split.
  - intros p c L. rewrite (reads_only_edge_labels _ _ p c Hr). apply Hne.
  - intros a. pose proof Hr as (-> & _). rewrite Hact.
    split; intros (p & m & c & Hm & Ha); exists p, m, c.
    + by rewrite (reads_only_labels _ _ p c Hr).
    + by rewrite (reads_only_labels _ _ p c Hr) in Hm.
  - intros p c. rewrite (reads_only_preds _ _ c Hr), Hrev.
    by setoid_rewrite (reads_only_labels _ _ p c Hr).
Qed.

Lemma graph_wf_construct defs : graph_wf (construct_graph_from_actors defs).
Proof.
  unfold construct_graph_from_actors. destruct (build_tables defs) as [PT CT].
  generalize (elements (dom PT ∩ dom CT)). intros ms.
  generalize graph_wf_new. generalize new_graph.
  induction ms as [|m0 ms IH]; intros g Hg; simpl; [done|].
  apply IH. generalize (list_prod (elements (dd_val CT m0)) (elements (dd_val PT m0))).
  intros l. revert g Hg. induction l as [|[c p] l IHl]; intros g Hg; simpl; [done|].
  apply IHl. by apply graph_wf_add_edge.
Qed.

(** Every name of [S] is an end of an edge with both ends in [S]. *)
Definition seen_closed (g : RepositoryGraph) (S : gset string) : Prop :=
  ∀ a, a ∈ S → ∃ p m c, p ∈ S ∧ c ∈ S ∧ m ∈ labels g p c ∧ (a = p ∨ a = c).

Lemma labels_restrict_to g (S : gset string) p c m :
  m ∈ labels (restrict_to g S) p c ↔ p ∈ S ∧ c ∈ S ∧ m ∈ labels g p c.
Proof.
  destruct (restrict_to_spec g S) as (H1 & _ & _).
  rewrite !labels_edge_labels, H1. case_decide; simpl; set_solver.
Qed.

Lemma graph_wf_restrict_to g (S : gset string) :
  graph_wf g → seen_closed g S → graph_wf (restrict_to g S).
Proof.
  intros Hwf Hcl. destruct (restrict_to_spec g S) as (H1 & H2 & H3). split.
  - intros p c L. rewrite H1. case_decide; [|done]. by apply wf_nonempty.
  - intros a. rewrite H3. setoid_rewrite labels_restrict_to. split.
    + intros Ha. destruct (Hcl a Ha) as (p & m & c & ? & ? & ? & ?). by exists p, m, c.
    + intros (p & m & c & (? & ? & ?) & [->| ->]); done.
  - intros p c. rewrite H2. setoid_rewrite labels_restrict_to.
    rewrite (wf_entry_label g p c Hwf). naive_solver.
Qed.

(** On a well-formed graph the seen set of either mode is closed. *)
Lemma seen_in_mode_closed g ents tight (S : gset string) :
  graph_wf g → (∀ a, a ∈ S ↔ seen_in_mode g ents tight a) → seen_closed g S.
Proof.
  intros Hwf HS a Ha. unfold seen_in_mode in HS.
  destruct (collect_actors_spec g ents) as [HF HB].
  destruct (_collect_actors_for_entities g ents) as [F B]. simpl in HF, HB.
  assert (∀ p c, c ∈ succs g p → ∃ m, m ∈ labels g p c) as Hsucc.
  { intros p c Hc. apply (wf_entry_label g p c Hwf). by apply elem_of_succs. }
  assert (∀ p c m, m ∈ labels g p c → c ∈ succs g p) as Hsucc'.
  { intros p c m Hm. apply elem_of_succs. by eapply labels_is_Some. }
  pose proof (wf_reverse g Hwf) as Hrev. pose proof (wf_actors g Hwf) as Hact.
  destruct tight.
  - (* tight *)
    assert (∀ x, x ∈ F → x ∈ S) as HFS by (intros x Hx; apply HS; left; by apply reach_seed).
    assert (∀ x, x ∈ B → x ∈ S) as HBS by (intros x Hx; apply HS; right; by apply reach_seed).
    assert (∀ x, x ∈ ents → x ∈ actors g →
              ∃ p m c, p ∈ S ∧ c ∈ S ∧ m ∈ labels g p c ∧ (x = p ∨ x = c)) as Hnode.
    { intros x Hent Hx.
      assert (x ∈ F) as HxF by (apply HF; exists x; split; [done | by left]).
      assert (x ∈ B) as HxB by (apply HB; exists x; split; [done | by left]).
      apply Hact in Hx as (p & m & c & Hm & [->| ->]).
      - exists p, m, c. split; [by apply HFS|]. split; [|by auto].
        apply HS. left. eapply reach_step; [by apply reach_seed|].
        apply elem_of_forward_nbrs. by eapply Hsucc'.
      - exists p, m, c. split; [|split; [by apply HFS | by auto]].
        apply HS. right. eapply reach_step; [by apply reach_seed|].
        apply elem_of_backward_nbrs. apply Hrev. by exists m. }
    apply HS in Ha as [Ha|Ha]; apply reach_inv in Ha as [Hseed|(b & Hb & Hstep)].
    + pose proof Hseed as (e & He & [[He' ->]|[Hn [p Hp]]])%HF.
      * by apply Hnode.
      * exists p, e, a. split; [|split; [by apply HFS | by auto]].
        apply HBS, HB. exists e. split; [done|]. right. eauto.
    + apply elem_of_forward_nbrs in Hstep. destruct (Hsucc b a Hstep) as [m Hm].
      exists b, m, a. split; [apply HS; by left|]. split; [|by auto].
      apply HS. left. eapply reach_step; [done|]. by apply elem_of_forward_nbrs.
    + pose proof Hseed as (e & He & [[He' ->]|[Hn [c Hc]]])%HB.
      * by apply Hnode.
      * exists a, e, c. split; [by apply HBS|]. split; [|by auto].
        apply HFS, HF. exists e. split; [done|]. right. eauto.
    + apply elem_of_backward_nbrs in Hstep. apply Hrev in Hstep as [m Hm].
      exists a, m, b. split; [|split; [apply HS; by right | by auto]].
      apply HS. right. eapply reach_step; [done|].
      apply elem_of_backward_nbrs, Hrev. by exists m.
  - (* loose *)
    assert (∀ x, x ∈ F ∪ B → x ∈ S) as Hseeds by (intros x Hx; apply HS; by apply reach_seed).
    assert (∀ x y, x ∈ S → y ∈ succs g x ∨ y ∈ preds g x → y ∈ S) as Hstep.
    { intros x y Hx Hy. apply HS. eapply reach_step; [by apply HS|].
      by apply elem_of_dfs_nbrs. }
    assert (∀ x, x ∈ actors g → x ∈ S →
              ∃ p m c, p ∈ S ∧ c ∈ S ∧ m ∈ labels g p c ∧ (x = p ∨ x = c)) as Hnode.
    { intros x Hx HxS. apply Hact in Hx as (p & m & c & Hm & [->| ->]).
      - exists p, m, c. split; [done|]. split; [|by auto].
        apply (Hstep p c HxS). left. by eapply Hsucc'.
      - exists p, m, c. split; [|split; [done | by auto]].
        apply (Hstep c p HxS). right. apply Hrev. by exists m. }
    pose proof Ha as Ha'. apply HS in Ha'. apply reach_inv in Ha' as [Hseed|(b & Hb & Hnb)].
    + apply elem_of_union in Hseed as [Hseed|Hseed].
      * pose proof Hseed as (e & He & [[He' ->]|[Hn [p Hp]]])%HF.
        -- by apply Hnode.
        -- exists p, e, a. split; [|split; [done | by auto]].
           apply Hseeds, elem_of_union. right. apply HB. exists e. split; [done|]. right. eauto.
      * pose proof Hseed as (e & He & [[He' ->]|[Hn [c Hc]]])%HB.
        -- by apply Hnode.
        -- exists a, e, c. split; [done|]. split; [|by auto].
           apply Hseeds, elem_of_union. left. apply HF. exists e. split; [done|]. right. eauto.
    + apply HS in Hb. apply elem_of_dfs_nbrs in Hnb as [Hnb|Hnb].
      * destruct (Hsucc b a Hnb) as [m Hm]. exists b, m, a. by auto.
      * apply Hrev in Hnb as [m Hm]. exists a, m, b. by auto.
Qed.

(** ** Graphs produced by the public operations *)

(** The graphs obtainable from the constructor, [add_edge], the builder and
    subgraph extraction (both the returned graph and the source graph as the
    call leaves it). *)
Inductive produced : RepositoryGraph → Prop :=
| produced_new : produced new_graph
| produced_add_edge g s m t : produced g → produced (add_edge g s m t)
| produced_construct defs : produced (construct_graph_from_actors defs)
| produced_subgraph g ents tight r g' :
    produced g → make_subgraph_related_to g ents tight = Some (r, g') → produced r
| produced_source g ents tight r g' :
    produced g → make_subgraph_related_to g ents tight = Some (r, g') → produced g'.

Lemma produced_wf g : produced g → graph_wf g.
Proof.
  induction 1 as [|g s m t _ IH|defs|g ents tight r g' _ IH Hsub|g ents tight r g' _ IH Hsub].
  - apply graph_wf_new.
  - by apply graph_wf_add_edge.
  - apply graph_wf_construct.
  - destruct (seen_actors_for_spec g ents tight) as (S & g1 & E & Hr & HS).
    unfold make_subgraph_related_to in Hsub. rewrite E in Hsub. simpl in Hsub.
    injection Hsub as <- <-.
    apply graph_wf_restrict_to; [by eapply graph_wf_reads_only|].
    intros a Ha. destruct (seen_in_mode_closed g ents tight S IH HS a Ha)
      as (p & m & c & ? & ? & Hm & ?).
    exists p, m, c. by rewrite (reads_only_labels _ _ p c Hr).
  - destruct (seen_actors_for_spec g ents tight) as (S & g1 & E & Hr & HS).
    unfold make_subgraph_related_to in Hsub. rewrite E in Hsub. simpl in Hsub.
    injection Hsub as <- <-. by eapply graph_wf_reads_only.
Qed.

(** ** Scenario graphs *)

(** Scenario A: A produces X; B consumes X and produces Y; C consumes Y. *)
Definition scenario_A : list ActorDefinition :=
  [mkActor "A" ["X"] []; mkActor "B" ["Y"] ["X"]; mkActor "C" [] ["Y"]].

Definition scenario_A_graph : RepositoryGraph := construct_graph_from_actors scenario_A.

Example scenario_A_edges :
  iter_edges scenario_A_graph = [("A", "X", "B"); ("B", "Y", "C")].
Proof. vm_compute. reflexivity. Qed.

Example scenario_A_names_unique : NoDup (class_name <$> scenario_A).
Proof. compute_done. Qed.

(** * The stated properties *)

(** C1.  For a list of actor definitions with unique names, the built graph
    has the edge triple (p, m, c) exactly when m is among the messages
    produced by the definition named p and among those consumed by the
    definition named c; equivalently, exactly when p is in the producer
    table's set for m and c in the consumer table's set for m, the table
    sets being the names of the definitions that produce (consume) m. *)
Theorem construct_graph_edge_iff (defs : list ActorDefinition) (p m c : string) :
  NoDup (class_name <$> defs) →
  ((p, m, c) ∈ iter_edges (construct_graph_from_actors defs) ↔
     ∃ dp dc, descriptor_of defs p = Some dp ∧ descriptor_of defs c = Some dc ∧
              m ∈ produces dp ∧ m ∈ consumes dc) ∧
  ((p, m, c) ∈ iter_edges (construct_graph_from_actors defs) ↔
     p ∈ dd_val (producers_table defs) m ∧ c ∈ dd_val (consumers_table defs) m) ∧
  (p ∈ dd_val (producers_table defs) m ↔
     ∃ dp, descriptor_of defs p = Some dp ∧ m ∈ produces dp) ∧
  (c ∈ dd_val (consumers_table defs) m ↔
     ∃ dc, descriptor_of defs c = Some dc ∧ m ∈ consumes dc).
Proof.
  intros Hnd.
  assert (p ∈ dd_val (producers_table defs) m ↔
          ∃ dp, descriptor_of defs p = Some dp ∧ m ∈ produces dp) as HP.
  { destruct (elem_of_build_tables defs p m) as [-> _].
    setoid_rewrite (descriptor_of_unique defs p _ Hnd). naive_solver. }
  assert (c ∈ dd_val (consumers_table defs) m ↔
          ∃ dc, descriptor_of defs c = Some dc ∧ m ∈ consumes dc) as HC.
  { destruct (elem_of_build_tables defs c m) as [_ ->].
    setoid_rewrite (descriptor_of_unique defs c _ Hnd). naive_solver. }
  split; [|split; [apply construct_graph_tables | done]].
  rewrite construct_graph_tables, HP, HC. naive_solver.
Qed.

Lemma construct_graph_edge_iff_witness :
  ("A", "X", "B") ∈ iter_edges (construct_graph_from_actors scenario_A) ↔
  ∃ dp dc, descriptor_of scenario_A "A" = Some dp ∧ descriptor_of scenario_A "B" = Some dc ∧
           "X" ∈ produces dp ∧ "X" ∈ consumes dc.
Proof.
  apply (construct_graph_edge_iff scenario_A "A" "X" "B").
  compute_done.
Defined.

(** C2.  Extraction returns; with S the seen set computed by the scan of
    the chosen mode, the returned graph has the entry (p, c) with label set
    L exactly when the source graph has the entry (p, c) with label set L
    and both p and c are in S, and the node set of the returned graph is S. *)
Theorem make_subgraph_edges_and_nodes (g : RepositoryGraph) (ents : list string) (tight : bool) :
  ∃ S g' r,
    seen_actors_for g ents tight = Some (S, g') ∧
    make_subgraph_related_to g ents tight = Some (r, g') ∧
    actors r = S ∧
    ∀ p c L, edge_labels r p c = Some L ↔ edge_labels g p c = Some L ∧ p ∈ S ∧ c ∈ S.
Proof.
  destruct (seen_actors_for_spec g ents tight) as (S & g' & E & Hr & _).
  exists S, g', (restrict_to g' S). split; [done|].
  split; [unfold make_subgraph_related_to; by rewrite E|].
  destruct (restrict_to_spec g' S) as (H1 & _ & H3). split; [done|].
  intros p c L. rewrite H1, (reads_only_edge_labels _ _ p c Hr).
  case_decide; naive_solver.
Qed.

(** C3.  For every graph and entity list, both modes of extraction return,
    and the node set of the loose-mode result contains the node set of the
    tight-mode result. *)
Theorem loose_nodes_include_tight_nodes (g : RepositoryGraph) (ents : list string) :
  ∃ r_loose g_loose r_tight g_tight,
    make_subgraph_related_to g ents false = Some (r_loose, g_loose) ∧
    make_subgraph_related_to g ents true = Some (r_tight, g_tight) ∧
    actors r_tight ⊆ actors r_loose.
Proof.
  destruct (seen_actors_for_spec g ents false) as (Sl & gl & El & _ & Hl).
  destruct (seen_actors_for_spec g ents true) as (St & gt & Et & _ & Ht).
  exists (restrict_to gl Sl), gl, (restrict_to gt St), gt.
  unfold make_subgraph_related_to. rewrite El, Et. simpl. split; [done|]. split; [done|].
  intros a Ha. apply Ht in Ha. apply Hl. unfold seen_in_mode in *.
  destruct (_collect_actors_for_entities g ents) as [F B].
  destruct Ha as [Ha|Ha]; (eapply reach_mono; [| |exact Ha]);
    [set_solver | | set_solver | ]; intros x y Hy; apply elem_of_app; auto.
Qed.

(** C4.  Seed classification.  An entity that is a node is put in both
    seed sets.  For an entity that is not a node, every edge triple
    carrying it as label puts its source in the backward set and its target
    in the forward set.  Nothing else is put in either set: an entity that
    is neither a node nor a label of an edge contributes no seed. *)
Theorem collect_actors_classification (g : RepositoryGraph) (ents : list string) :
  let forward_actors := (_collect_actors_for_entities g ents).1 in
  let backward_actors := (_collect_actors_for_entities g ents).2 in
  (∀ e, e ∈ ents → e ∈ actors g → e ∈ forward_actors ∧ e ∈ backward_actors) ∧
  (∀ e p c, e ∈ ents → ¬ (e ∈ actors g) → (p, e, c) ∈ iter_edges g →
            p ∈ backward_actors ∧ c ∈ forward_actors) ∧
  (∀ x, x ∈ forward_actors →
        ∃ e, e ∈ ents ∧ ((e ∈ actors g ∧ x = e) ∨
                         (¬ (e ∈ actors g) ∧ ∃ p, (p, e, x) ∈ iter_edges g))) ∧
  (∀ x, x ∈ backward_actors →
        ∃ e, e ∈ ents ∧ ((e ∈ actors g ∧ x = e) ∨
                         (¬ (e ∈ actors g) ∧ ∃ c, (x, e, c) ∈ iter_edges g))).
Proof.
  cbn zeta. destruct (collect_actors_spec g ents) as [HF HB].
  setoid_rewrite elem_of_iter_edges. repeat split.
  - apply HF. exists e. split; [done|]. by left.
  - apply HB. exists e. split; [done|]. by left.
  - apply HB. exists e. split; [done|]. right. eauto.
  - apply HF. exists e. split; [done|]. right. eauto.
  - intros x Hx. by apply HF.
  - intros x Hx. by apply HB.
Qed.

Lemma collect_actors_classification_witness :
  "B" ∈ (_collect_actors_for_entities scenario_A_graph ["Y"]).2 ∧
  "C" ∈ (_collect_actors_for_entities scenario_A_graph ["Y"]).1.
Proof.
  pose proof (collect_actors_classification scenario_A_graph ["Y"]) as (_ & H & _).
  apply (H "Y" "B" "C").
  - apply list_elem_of_singleton. reflexivity.
  - compute_done.
  - compute_done.
Defined.

(** The reading of C5 in the words of the specification: of the definitions
    sharing a name only the last one counts. *)
Fixpoint keep_last_by_name (defs : list ActorDefinition) : list ActorDefinition :=
  match defs with
  | [] => []
  | d :: rest =>
    if bool_decide (class_name d ∈ class_name <$> rest) then keep_last_by_name rest
    else d :: keep_last_by_name rest
  end.

(** Two definitions named A, the first producing X and the last producing
    nothing, and a consumer B of X. *)
Definition duplicate_A : list ActorDefinition :=
  [mkActor "A" ["X"] []; mkActor "A" [] []; mkActor "B" [] ["X"]].

(** C5, as stated, fails: with two definitions named A the built graph is
    not the graph of the last definition alone; the edge contributed by the
    first definition is still there. *)
Lemma duplicate_names_not_overwritten :
  keep_last_by_name duplicate_A = [mkActor "A" [] []; mkActor "B" [] ["X"]] ∧
  iter_edges (construct_graph_from_actors duplicate_A) = [("A", "X", "B")] ∧
  iter_edges (construct_graph_from_actors (keep_last_by_name duplicate_A)) = [] ∧
  construct_graph_from_actors duplicate_A ≠
    construct_graph_from_actors (keep_last_by_name duplicate_A).
Proof.
  split; [by vm_compute|]. split; [by vm_compute|]. split; [by vm_compute|].
  intros Heq. apply (f_equal iter_edges) in Heq. vm_compute in Heq. discriminate.
Qed.

(** C5, amended.  Definitions sharing a name are merged, not overwritten:
    for any list of definitions, the built graph has the triple (p, m, c)
    exactly when some definition named p produces m and some definition
    named c consumes m; the table entry for m holds every name with a
    definition listing m.  The builder is total: it reports nothing. *)
Theorem construct_graph_merges_same_names (defs : list ActorDefinition) (p m c : string) :
  ((p, m, c) ∈ iter_edges (construct_graph_from_actors defs) ↔
     (∃ dp, dp ∈ defs ∧ class_name dp = p ∧ m ∈ produces dp) ∧
     (∃ dc, dc ∈ defs ∧ class_name dc = c ∧ m ∈ consumes dc)) ∧
  (p ∈ dd_val (producers_table defs) m ↔
     ∃ dp, dp ∈ defs ∧ class_name dp = p ∧ m ∈ produces dp) ∧
  (c ∈ dd_val (consumers_table defs) m ↔
     ∃ dc, dc ∈ defs ∧ class_name dc = c ∧ m ∈ consumes dc).
Proof.
  split; [apply construct_graph_edges|].
  split; [apply (elem_of_build_tables defs p m) | apply (elem_of_build_tables defs c m)].
Qed.

(** The tight extraction of Scenario B: the graph returned for the message
    seed Y on the Scenario A graph. *)
Definition scenario_B_graph : RepositoryGraph :=
  (default (new_graph, new_graph)
     (make_subgraph_related_to scenario_A_graph ["Y"] true)).1.

Definition scenario_B_source : RepositoryGraph :=
  (default (new_graph, new_graph)
     (make_subgraph_related_to scenario_A_graph ["Y"] true)).2.

Example scenario_B_run :
  make_subgraph_related_to scenario_A_graph ["Y"] true
  = Some (scenario_B_graph, scenario_B_source).
Proof. vm_compute. reflexivity. Qed.

Example scenario_B_nodes_edges :
  elements (actors scenario_B_graph) = ["C"; "A"; "B"] ∧
  iter_edges scenario_B_graph = [("A", "X", "B"); ("B", "Y", "C")].
Proof. split; vm_compute; reflexivity. Qed.

Lemma produced_scenario_B : produced scenario_B_graph.
Proof.
  eapply (produced_subgraph scenario_A_graph ["Y"] true).
  - apply produced_construct.
  - vm_compute. reflexivity.
Defined.

(** C6.  In every graph produced by the public operations the node set is
    exactly the set of sources and targets of the edge triples: a name is a
    node exactly when some edge starts or ends at it. *)
Theorem produced_nodes_are_edge_ends (g : RepositoryGraph) :
  produced g →
  ∀ a, a ∈ actors g ↔ ∃ p m c, (p, m, c) ∈ iter_edges g ∧ (a = p ∨ a = c).
Proof.
  intros Hp a. setoid_rewrite elem_of_iter_edges. by apply wf_actors, produced_wf.
Qed.

Lemma produced_nodes_are_edge_ends_witness :
  "C" ∈ actors scenario_B_graph ↔
  ∃ p m c, (p, m, c) ∈ iter_edges scenario_B_graph ∧ ("C" = p ∨ "C" = c).
Proof. apply (produced_nodes_are_edge_ends scenario_B_graph). exact produced_scenario_B. Defined.

(** C7.  In every graph produced by the public operations the reverse
    index agrees with the forward map: whenever the forward map has an entry
    (p, c), in particular whenever (p, m, c) is an edge triple, p is in the
    reverse set of c; and p is in the reverse set of c only if the forward
    map has an entry (p, c) with a non-empty label set. *)
Theorem produced_reverse_index_consistent (g : RepositoryGraph) :
  produced g →
  (∀ p m c, (p, m, c) ∈ iter_edges g → p ∈ dd_val (reverse_edges g) c) ∧
  (∀ p c L, edge_labels g p c = Some L → p ∈ dd_val (reverse_edges g) c) ∧
  (∀ p c, p ∈ dd_val (reverse_edges g) c → ∃ L, edge_labels g p c = Some L ∧ L ≠ ∅).
Proof.
  intros Hp. apply produced_wf in Hp. pose proof (wf_reverse g Hp) as Hrev.
  unfold preds in Hrev. split; [|split].
  - intros p m c Hin. apply Hrev. exists m. by apply elem_of_iter_edges.
  - intros p c L HL. apply Hrev, (wf_entry_label g p c Hp). by eexists.
  - intros p c Hin. apply Hrev in Hin. apply (wf_entry_label g p c Hp) in Hin as [L HL].
    exists L. split; [done|]. by eapply wf_nonempty.
Qed.

Lemma produced_reverse_index_consistent_witness :
  "B" ∈ dd_val (reverse_edges scenario_B_graph) "C".
Proof.
  pose proof (produced_reverse_index_consistent scenario_B_graph produced_scenario_B)
    as (H & _ & _).
  apply (H "B" "Y" "C"). compute_done.
Defined.

Lemma restrict_to_empty g : restrict_to g ∅ = new_graph.
Proof.
  generalize (not_elem_of_empty (C:=gset string)). generalize (∅ : gset string).
  intros S HS. unfold restrict_to.
  assert (∀ (l : list (string * gmap string (gset string))) r,
    fold_left
      (λ r '((source_actor, target_actors) : string * gmap string (gset string)),
         if decide (source_actor ∈ S) then
           fold_left
             (λ r '((target_actor, msgs) : string * gset string),
                if decide (target_actor ∈ S) then
                  copy_edge r source_actor target_actor msgs
                else r)
             (map_to_list target_actors) r
         else r) l r = r) as Hfold.
  { induction l as [|[s tm] l IH]; intros r; cbn [fold_left]; [done|].
    rewrite decide_False by apply HS. apply IH. }
  rewrite Hfold. simpl. f_equal. apply elem_of_equiv_empty_L, HS.
Qed.

Lemma scan_fuel_succ g seeds : ∃ n, scan_fuel g seeds = S n.
Proof. unfold scan_fuel. eexists. by rewrite Nat.add_1_r. Qed.

Lemma scans_from_no_seed g :
  _forward_scan g ∅ = Some (∅, g) ∧ _backward_scan g ∅ = Some (∅, g) ∧
  _dfs_graph_scan g ∅ = Some (∅, g).
Proof.
  unfold _forward_scan, _backward_scan, _dfs_graph_scan.
  destruct (scan_fuel_succ g ∅) as [n ->]. by rewrite elements_empty.
Qed.

(** C10.  When no entity is a node of the graph and no entity is the label
    of an edge triple (in particular when there are no entities), extraction
    in either mode returns the empty graph: no node, no entry in the forward
    map, none in the reverse index.  The source graph is left as it was. *)
Theorem unrecognised_entities_give_empty_graph
    (g : RepositoryGraph) (ents : list string) (tight : bool) :
  (∀ e, e ∈ ents → ¬ (e ∈ actors g) ∧ ∀ p c, ¬ ((p, e, c) ∈ iter_edges g)) →
  make_subgraph_related_to g ents tight = Some (new_graph, g) ∧
  actors new_graph = ∅ ∧ iter_edges new_graph = [] ∧
  edges new_graph = ∅ ∧ reverse_edges new_graph = ∅.
Proof.
  intros Hno. split; [|done].
  destruct (collect_actors_spec g ents) as [HF HB].
  assert ((_collect_actors_for_entities g ents).1 = ∅) as EF.
  { apply elem_of_equiv_empty_L. intros x Hx.
    apply HF in Hx as (e & He & [[Ha _]|[_ [p Hp]]]); destruct (Hno e He) as [Hna Hne].
    - done.
    - apply (Hne p x). by apply elem_of_iter_edges. }
  assert ((_collect_actors_for_entities g ents).2 = ∅) as EB.
  { apply elem_of_equiv_empty_L. intros x Hx.
    apply HB in Hx as (e & He & [[Ha _]|[_ [c Hc]]]); destruct (Hno e He) as [Hna Hne].
    - done.
    - apply (Hne x c). by apply elem_of_iter_edges. }
  unfold make_subgraph_related_to, seen_actors_for.
  destruct (_collect_actors_for_entities g ents) as [F B]. simpl in EF, EB. subst F B.
  destruct (scans_from_no_seed g) as (Ef & Eb & Ed).
  destruct tight.
  - rewrite Ef. simpl. rewrite Eb. simpl.
    by rewrite (left_id_L ∅ (∪)), restrict_to_empty.
  - rewrite (left_id_L ∅ (∪)), Ed. simpl. by rewrite restrict_to_empty.
Qed.

Lemma unrecognised_entities_give_empty_graph_witness :
  make_subgraph_related_to scenario_A_graph ["Z"] true = Some (new_graph, scenario_A_graph).
Proof.
  apply (unrecognised_entities_give_empty_graph scenario_A_graph ["Z"] true).
  intros e He. apply list_elem_of_singleton in He. subst e. split.
  - compute_done.
  - intros p c Hin. rewrite scenario_A_edges in Hin.
    apply elem_of_cons in Hin as [Hin|Hin]; [discriminate|].
    apply list_elem_of_singleton in Hin. discriminate.
Defined.

(** ** The serializer *)

(** [text.split('\n')] *)
Fixpoint lines (text : string) : list string :=
  match text with
  | EmptyString => [EmptyString]
  | String ch rest =>
    if Ascii.eqb ch (Ascii.ascii_of_nat 10) then EmptyString :: lines rest
    else match lines rest with
         | [] => [String ch EmptyString]
         | line :: others => String ch line :: others
         end
  end.

(** The grammar of C8 in the words of the specification: the four header
    lines, one declaration line per node, one line per edge triple, and the
    footer line, the node lines and the triple lines in some order.  A final
    line break after the footer is allowed. *)
Definition header_lines : list string :=
  ["digraph " +:+ dquote +:+ "leapp-actors" +:+ dquote +:+ " {";
   "nodesep=2"; "ranksep=2"; "rankdir=LR"].

Definition dot_grammar_lines (ns : list string) (es : list (string * string * string))
  : list string :=
  header_lines ++ (node_declaration <$> ns) ++ (edge_declaration <$> es) ++ ["}"].

Definition follows_dot_grammar (g : RepositoryGraph) (text : string) : Prop :=
  ∃ ns es, ns ≡ₚ elements (actors g) ∧ es ≡ₚ iter_edges g ∧
           (lines text = dot_grammar_lines ns es ∨
            lines text = dot_grammar_lines ns es ++ [EmptyString]).

Example scenario_A_dot_lines :
  lines (into_dot scenario_A_graph) =
  ["digraph " +:+ dquote +:+ "leapp-actors" +:+ dquote +:+ " {";
   "nodesep=2"; "ranksep=2"; "rankdir=LR";
   " C [label=C]"; "A [label=A]"; "B [label=B]";
   " A -> B [label=X]"; "B -> C [label=Y]";
   " }"; EmptyString].
Proof. vm_compute. reflexivity. Qed.

Example empty_graph_dot_lines :
  lines (into_dot new_graph) =
  ["digraph " +:+ dquote +:+ "leapp-actors" +:+ dquote +:+ " {";
   "nodesep=2"; "ranksep=2"; "rankdir=LR"; " "; " "; " }"; EmptyString].
Proof. vm_compute. reflexivity. Qed.

(** C8, as stated, fails: the text rendered for the Scenario A graph does
    not follow the grammar.  Its footer line is a space followed by the
    brace, and its first node line and first edge line start with a space. *)
Lemma into_dot_not_the_grammar :
  ¬ follows_dot_grammar scenario_A_graph (into_dot scenario_A_graph).
Proof.
  intros (ns & es & _ & _ & Hlines).
  assert ("}" ∈ lines (into_dot scenario_A_graph)) as Hin.
  { destruct Hlines as [-> | ->]; unfold dot_grammar_lines;
      rewrite !elem_of_app, !list_elem_of_singleton; tauto. }
  revert Hin. compute_done.
Qed.

Lemma NoDup_iter_edges g : NoDup (iter_edges g).
Proof.
  unfold iter_edges. apply NoDup_bind; [| |apply NoDup_map_to_list].
  - intros [s1 tm1] [s2 tm2] [[p m] c] H1 H2 Hy1 Hy2.
    apply elem_of_map_to_list in H1, H2.
    apply list_elem_of_bind in Hy1 as ([t1 L1] & Hy1 & _).
    apply list_elem_of_bind in Hy1 as (x1 & Hy1 & _).
    apply list_elem_of_bind in Hy2 as ([t2 L2] & Hy2 & _).
    apply list_elem_of_bind in Hy2 as (x2 & Hy2 & _).
    apply list_elem_of_singleton in Hy1, Hy2. simplify_eq. done.
  - intros [s tm] _. apply NoDup_bind; [| |apply NoDup_map_to_list].
    + intros [t1 L1] [t2 L2] [[p m] c] H1 H2 Hy1 Hy2.
      apply elem_of_map_to_list in H1, H2.
      apply list_elem_of_bind in Hy1 as (x1 & Hy1 & _).
      apply list_elem_of_bind in Hy2 as (x2 & Hy2 & _).
      apply list_elem_of_singleton in Hy1, Hy2. simplify_eq. done.
    + intros [t L] _. apply NoDup_bind; [| |apply NoDup_elements].
      * intros x1 x2 y _ _ Hy1 Hy2.
        apply list_elem_of_singleton in Hy1, Hy2. by simplify_eq.
      * intros x _. apply NoDup_singleton.
Qed.

(** C8, amended.  The rendered text is the header, then the node
    declarations separated by line breaks, then the edge declarations
    separated by line breaks, then the footer and a final line break, each
    of these three parts being introduced by a line break and one space.
    There is one node declaration [name [label=name]] per node and one edge
    declaration [source -> target [label=label]] per pair of an entry of
    the forward map and a label of it, each exactly once. *)
Theorem into_dot_text (g : RepositoryGraph) :
  ∃ (ns : list string) (es : list (string * string * string)),
    NoDup ns ∧ (∀ a, a ∈ ns ↔ a ∈ actors g) ∧
    NoDup es ∧
    (∀ p m c, (p, m, c) ∈ es ↔ ∃ L, edge_labels g p c = Some L ∧ m ∈ L) ∧
    length es = length (iter_edges g) ∧
    into_dot g =
      "digraph " +:+ dquote +:+ "leapp-actors" +:+ dquote +:+ " {" +:+ nl +:+
      "nodesep=2" +:+ nl +:+
      "ranksep=2" +:+ nl +:+
      "rankdir=LR" +:+ nl +:+
      " " +:+ join nl ((λ a, a +:+ " [label=" +:+ a +:+ "]") <$> ns) +:+ nl +:+
      " " +:+ join nl ((λ '(p, m, c), p +:+ " -> " +:+ c +:+ " [label=" +:+ m +:+ "]") <$> es)
          +:+ nl +:+
      " }" +:+ nl.
Proof.
  exists (elements (actors g)), (iter_edges g).
  split; [apply NoDup_elements|]. split; [intros a; apply elem_of_elements|].
  split; [apply NoDup_iter_edges|]. split; [|split; [done|]].
  - intros p m c. rewrite elem_of_iter_edges, labels_edge_labels.
    destruct (edge_labels g p c) as [L|]; simpl; [naive_solver | set_solver].
  - reflexivity.
Qed.

(** ** Nested loops over a two-level dictionary, filtered by a set *)

Lemma if_decide_iff {A : Type} (P Q : Prop) `{Decision P, Decision Q} (a b : A) :
  (P ↔ Q) → (if decide P then a else b) = (if decide Q then a else b).
Proof. intros Hiff. repeat case_decide; tauto. Qed.

Section keyed_fold.
Context {T V X : Type}.
(** [look r p c]: what the state holds for the pair (p, c);
    [step r s t v]: the loop body for the entry (s, t) with value [v]. *)
Variable look : T → string → string → option X.
Variable step : T → string → string → V → T.
Variable val : V → X.
Variable I : T → Prop.
Variable okV : V → Prop.
Variable S : gset string.
Hypothesis step_I : ∀ r s t v, I r → okV v → I (step r s t v).
Hypothesis step_look : ∀ r s t v p c, I r → okV v →
  look (step r s t v) p c = if decide (s = p ∧ t = c) then Some (val v) else look r p c.

Lemma keyed_fold_inner (s : string) (tm : gmap string V) (l : list (string * V)) (r : T) :
  (∀ t v, (t, v) ∈ l → tm !! t = Some v) →
  (∀ t v, tm !! t = Some v → okV v) →
  I r →
  let r' := fold_left
    (λ r '((t, v) : string * V), if decide (t ∈ S) then step r s t v else r) l r in
  I r' ∧
  ∀ p c, look r' p c =
         if decide (p = s ∧ c ∈ S ∧ c ∈ l.*1) then val <$> tm !! c else look r p c.
Proof using step_I step_look.
  intros Hfun Hok. revert r. induction l as [|[t v] l IH]; intros r Hr; cbn [fold_left].
  - split; [done|]. intros p c. rewrite decide_False; [done|].
    intros (_ & _ & Hin). by apply elem_of_nil in Hin.
  - assert (∀ t' v', (t', v') ∈ l → tm !! t' = Some v') as Hfun'
      by (intros; apply Hfun; by right).
    assert (tm !! t = Some v) as Ht by (apply Hfun; left).
    assert (okV v) as Hv by eauto.
    assert (∀ c, c ∈ ((t, v) :: l).*1 ↔ c = t ∨ c ∈ l.*1) as Hcons
      by (intros c; by rewrite fmap_cons, elem_of_cons).
    case_decide as HtS.
    + destruct (IH Hfun' (step r s t v)) as [HI Hl]; [by apply step_I|].
      split; [done|]. intros p c. rewrite Hl, step_look by done.
      clear IH Hfun Hfun' Hok Hl HI Hr.
      destruct (decide (s = p ∧ t = c)) as [[<- <-]|Hne].
      * rewrite (decide_True (P := s = s ∧ t ∈ S ∧ t ∈ ((t, v) :: l).*1))
          by (rewrite Hcons; auto).
        rewrite Ht. simpl. by case_decide.
      * apply if_decide_iff. rewrite Hcons. split; [tauto|].
        intros (-> & ? & [->|?]); [|done]. by destruct Hne.
    + destruct (IH Hfun' r Hr) as [HI Hl]. split; [done|].
      intros p c. rewrite Hl. apply if_decide_iff. rewrite Hcons.
      split; [tauto|]. intros (? & ? & [->|?]); done.
Qed.

Lemma keyed_fold_outer (m : gmap string (gmap string V))
    (l : list (string * gmap string V)) (r : T) :
  (∀ s tm, (s, tm) ∈ l → m !! s = Some tm) →
  (∀ s tm t v, m !! s = Some tm → tm !! t = Some v → okV v) →
  I r →
  let r' := fold_left
    (λ r '((s, tm) : string * gmap string V),
       if decide (s ∈ S) then
         fold_left (λ r '((t, v) : string * V), if decide (t ∈ S) then step r s t v else r)
                   (map_to_list tm) r
       else r) l r in
  I r' ∧
  ∀ p c, look r' p c =
         if decide (p ∈ S ∧ c ∈ S ∧ p ∈ l.*1 ∧ is_Some (m !! p ≫= (λ tm, tm !! c)))
         then val <$> (m !! p ≫= (λ tm, tm !! c)) else look r p c.
Proof using step_I step_look.
  intros Hfun Hok. revert r. induction l as [|[s tm] l IH]; intros r Hr; cbn [fold_left].
  - split; [done|]. intros p c. rewrite decide_False; [done|].
    intros (_ & _ & Hin & _). by apply elem_of_nil in Hin.
  - assert (∀ s' tm', (s', tm') ∈ l → m !! s' = Some tm') as Hfun'
      by (intros; apply Hfun; by right).
    assert (m !! s = Some tm) as Hs by (apply Hfun; left).
    assert (∀ p, p ∈ ((s, tm) :: l).*1 ↔ p = s ∨ p ∈ l.*1) as Hcons
      by (intros p; by rewrite fmap_cons, elem_of_cons).
    case_decide as HsS.
    + destruct (keyed_fold_inner s tm (map_to_list tm) r) as [HI1 Hl1]; [| |done|].
      { intros t v. by rewrite elem_of_map_to_list. }
      { intros t v. by apply (Hok s tm). }
      destruct (IH Hfun' _ HI1) as [HI Hl]. split; [done|].
      intros p c. rewrite Hl, Hl1.
      assert (∀ c, c ∈ (map_to_list tm).*1 ↔ is_Some (tm !! c)) as Hkeys.
      { intros c'. rewrite list_elem_of_fmap. split.
        - intros ([k v] & -> & Hin). apply elem_of_map_to_list in Hin. by eexists.
        - intros [v Hv]. exists (c', v). split; [done|]. by apply elem_of_map_to_list. }
      clear IH Hfun Hfun' Hok Hl HI Hr HI1 Hl1.
      destruct (decide (p = s)) as [->|Hne].
      * assert (m !! s ≫= (λ tm, tm !! c) = tm !! c) as -> by (by rewrite Hs).
        destruct (decide (c ∈ S ∧ is_Some (tm !! c))) as [[HcS Hsome]|Hno].
        -- rewrite (decide_True (P := s ∈ S ∧ c ∈ S ∧ s ∈ ((s, tm) :: l).*1 ∧ is_Some (tm !! c)))
             by (rewrite Hcons; auto).
           rewrite (decide_True (P := s = s ∧ c ∈ S ∧ c ∈ (map_to_list tm).*1))
             by (rewrite Hkeys; auto).
           by case_decide.
        -- rewrite (decide_False (P := s ∈ S ∧ c ∈ S ∧ s ∈ ((s, tm) :: l).*1 ∧ is_Some (tm !! c)))
             by tauto.
           rewrite (decide_False (P := s ∈ S ∧ c ∈ S ∧ s ∈ l.*1 ∧ is_Some (tm !! c)))
             by tauto.
           rewrite (decide_False (P := s = s ∧ c ∈ S ∧ c ∈ (map_to_list tm).*1))
             by (rewrite Hkeys; tauto).
           done.
      * rewrite (decide_False (P := p = s ∧ c ∈ S ∧ c ∈ (map_to_list tm).*1)) by tauto.
        apply if_decide_iff. rewrite Hcons. tauto.
    + destruct (IH Hfun' r Hr) as [HI Hl]. split; [done|].
      intros p c. rewrite Hl. apply if_decide_iff. rewrite Hcons.
      split; [tauto|]. intros (? & ? & [->|?] & ?); done.
Qed.
End keyed_fold.

(** ** Label sets as objects

    The model above holds label sets by value.  To speak about sharing, the
    forward map is modelled here a second time with each label set an
    object of a store, named by its identity: [set(msgs)] and the default
    factory [set()] make a new object, [s.add(x)] updates an object in
    place.  Only the label sets of the forward map are objects here. *)
Module Objects.

(** The content of the set object [l]. *)
Definition deref (h : gmap nat (gset string)) (l : nat) : gset string :=
  default ∅ (h !! l).

(** The object on the pair (p, c) of a forward map. *)
Definition entry (oe : gmap string (gmap string nat)) (p c : string) : option nat :=
  oe !! p ≫= (λ targets, targets !! c).

(** The label set on the pair (p, c), by value. *)
Definition view (st : gmap nat (gset string) * gmap string (gmap string nat))
    (p c : string) : option (gset string) :=
  deref st.1 <$> entry st.2 p c.

(** A new set object with the given content. *)
Definition new_set (h : gmap nat (gset string)) (content : gset string)
  : nat * gmap nat (gset string) :=
  let l := fresh (dom h) in (l, <[l := content]> h).

(** [resulting_graph.edges[s][t] = set(msgs)], [msgs] an object of the
    source graph. *)
Definition copy_edge (st : gmap nat (gset string) * gmap string (gmap string nat))
    (source_actor target_actor : string) (msgs : nat)
  : gmap nat (gset string) * gmap string (gmap string nat) :=
  let '(l, h1) := new_set st.1 (deref st.1 msgs) in
  let '(targets, edges1) := dd_get st.2 source_actor in
  (h1, <[source_actor := <[target_actor := l]> targets]> edges1).

(** The loop of [make_subgraph_related_to] on the forward map: the store
    and the forward map of [resulting_graph]. *)
Definition restrict_edges (h : gmap nat (gset string))
    (oe : gmap string (gmap string nat)) (seen_actors : gset string)
  : gmap nat (gset string) * gmap string (gmap string nat) :=
  fold_left
    (λ st '((source_actor, target_actors) : string * gmap string nat),
       if decide (source_actor ∈ seen_actors) then
         fold_left
           (λ st '((target_actor, msgs) : string * nat),
              if decide (target_actor ∈ seen_actors) then
                copy_edge st source_actor target_actor msgs
              else st)
           (map_to_list target_actors) st
       else st)
    (map_to_list oe) (h, ∅).

(** [self.edges[source_actor][target_actor].add(msg)] of [add_edge]. *)
Definition add_label (st : gmap nat (gset string) * gmap string (gmap string nat))
    (e : string * string * string)
  : gmap nat (gset string) * gmap string (gmap string nat) :=
  let '(source_actor, msg, target_actor) := e in
  let '(targets, edges1) := dd_get st.2 source_actor in
  match targets !! target_actor with
  | Some l => (<[l := {[msg]} ∪ deref st.1 l]> st.1, edges1)
  | None =>
    let '(l, h1) := new_set st.1 ∅ in
    (<[l := {[msg]} ∪ deref h1 l]> h1,
     <[source_actor := <[target_actor := l]> targets]> edges1)
  end.

(** The objects of the forward map [oe] are all in the store. *)
Definition in_store (h : gmap nat (gset string)) (oe : gmap string (gmap string nat)) : Prop :=
  ∀ p c l, entry oe p c = Some l → l ∈ dom h.

(** The state [st] keeps the objects of [h] as they are, and its forward
    map names only objects made after [h]. *)
Definition apart_from (h : gmap nat (gset string))
    (st : gmap nat (gset string) * gmap string (gmap string nat)) : Prop :=
  (∀ l, l ∈ dom h → st.1 !! l = h !! l) ∧
  (∀ p c l, entry st.2 p c = Some l → ¬ (l ∈ dom h) ∧ l ∈ dom st.1).

Lemma fresh_not_old (h h1 : gmap nat (gset string)) :
  (∀ l, l ∈ dom h → h1 !! l = h !! l) → fresh (dom h1) ∉ dom h.
Proof.
  intros Hsame Hin. apply (is_fresh (dom h1)). apply elem_of_dom.
  rewrite (Hsame _ Hin). by apply elem_of_dom.
Qed.

Lemma entry_insert (oe : gmap string (gmap string nat)) s t l p c :
  entry (<[s := <[t := l]> (dd_val oe s)]> oe) p c =
  if decide (s = p ∧ t = c) then Some l else entry oe p c.
Proof.
  unfold entry. rewrite lookup_insert.
  destruct (decide (s = p)) as [->|Hs]; simpl.
  - rewrite lookup_insert. destruct (decide (t = c)) as [->|Ht].
    + by rewrite decide_True.
    + rewrite decide_False by naive_solver. unfold dd_val.
      destruct (oe !! p); [done|]. simpl. by rewrite lookup_empty.
  - by rewrite decide_False by naive_solver.
Qed.

Lemma copy_edge_eq st s t msgs :
  copy_edge st s t msgs =
  (<[fresh (dom st.1) := deref st.1 msgs]> st.1,
   <[s := <[t := fresh (dom st.1)]> (dd_val st.2 s)]> st.2).
Proof.
  unfold copy_edge, new_set.
  pose proof (dd_get_fst st.2 s) as Hf. pose proof (dd_get_insert st.2 s) as Hi.
  destruct (dd_get st.2 s) as [targets edges1]. simpl in Hf, Hi. subst targets.
  by rewrite Hi.
Qed.

Lemma copy_edge_apart h st s t msgs :
  apart_from h st → apart_from h (copy_edge st s t msgs).
Proof.
  intros [Hold Hnew]. rewrite copy_edge_eq. split; simpl.
  - intros l Hl. rewrite lookup_insert_ne; [by apply Hold|].
    intros <-. by apply (fresh_not_old h st.1).
  - intros p c l. rewrite entry_insert, dom_insert_L. case_decide.
    + intros [= <-]. split; [by apply fresh_not_old | set_solver].
    + intros Hl. apply Hnew in Hl. set_solver.
Qed.

Lemma copy_edge_view h st s t msgs p c :
  apart_from h st → msgs ∈ dom h →
  view (copy_edge st s t msgs) p c =
  if decide (s = p ∧ t = c) then Some (deref h msgs) else view st p c.
Proof.
  intros [Hold Hnew] Hm. rewrite copy_edge_eq. unfold view. simpl.
  rewrite entry_insert. case_decide; simpl.
  - f_equal. unfold deref. by rewrite lookup_insert_eq, (Hold _ Hm).
  - destruct (entry st.2 p c) as [l|] eqn:El; [|done]. simpl. f_equal.
    unfold deref. rewrite lookup_insert_ne; [done|].
    intros <-. apply Hnew in El as [_ El]. by apply (is_fresh (dom st.1)).
Qed.

(** The restricted forward map names new objects only, leaves the objects
    of the source graph as they are, and holds, by value, the entries of
    the source graph between seen actors. *)
Lemma restrict_edges_spec h oe (S : gset string) :
  in_store h oe →
  apart_from h (restrict_edges h oe S) ∧
  ∀ p c, view (restrict_edges h oe S) p c =
         if decide (p ∈ S ∧ c ∈ S) then view (h, oe) p c else None.
Proof.
  intros Hin. unfold restrict_edges.
  destruct (keyed_fold_outer view copy_edge (deref h) (apart_from h) (λ l, l ∈ dom h) S
              (λ r s t v Hr _, copy_edge_apart h r s t v Hr)
              (λ r s t v p c Hr Hv, copy_edge_view h r s t v p c Hr Hv)
              oe (map_to_list oe) (h, ∅)) as [HI Hl].
  { intros s tm. by rewrite elem_of_map_to_list. }
  { intros s tm t v Hs Ht. apply (Hin s t). unfold entry. by rewrite Hs. }
  { split; [done|]. intros p c l. unfold entry. simpl. by rewrite lookup_empty. }
  split; [done|]. intros p c. rewrite Hl.
  assert (view (h, ∅) p c = None) as -> by (unfold view, entry; simpl; by rewrite lookup_empty).
  assert (∀ p, is_Some (oe !! p) → p ∈ (map_to_list oe).*1) as Hkey.
  { intros q [tm Hq]. apply list_elem_of_fmap. exists (q, tm).
    split; [done|]. by apply elem_of_map_to_list. }
  unfold view, entry. simpl. clear HI Hl Hin.
  destruct (oe !! p) as [tm|] eqn:Ep; simpl.
  - destruct (tm !! c) as [l|] eqn:Ec; simpl.
    + repeat case_decide; try done; exfalso; naive_solver.
    + repeat case_decide; try done; exfalso; naive_solver.
  - repeat case_decide; try done; exfalso; naive_solver.
Qed.

Lemma add_label_apart h st e : apart_from h st → apart_from h (add_label st e).
Proof.
  intros [Hold Hnew]. destruct e as [[s m] t]. unfold add_label, new_set.
  assert (∀ tm, dd_val st.2 s = tm →
    apart_from h (<[fresh (dom st.1) := {[m]} ∪ deref (<[fresh (dom st.1) := ∅]> st.1)
                                                  (fresh (dom st.1))]>
                    (<[fresh (dom st.1) := ∅]> st.1),
                  <[s := <[t := fresh (dom st.1)]> tm]> st.2)) as Hfresh.
  { intros tm <-. split; simpl.
    - intros l' Hl'. rewrite !lookup_insert_ne; [by apply Hold| |];
        intros <-; by apply (fresh_not_old h st.1).
    - intros p c l'. rewrite entry_insert, !dom_insert_L. case_decide.
      + intros [= <-]. split; [by apply fresh_not_old | set_solver].
      + intros Hl'. apply Hnew in Hl'. set_solver. }
  destruct (st.2 !! s) as [tm|] eqn:Es.
  - rewrite (dd_get_present _ _ _ Es). destruct (tm !! t) as [l|] eqn:Et.
    + assert (entry st.2 s t = Some l) as El by (unfold entry; by rewrite Es).
      split; simpl.
      * intros l' Hl'. rewrite lookup_insert_ne; [by apply Hold|].
        intros <-. by apply Hnew in El as [? _].
      * intros p c l' Hl'. apply Hnew in Hl'. rewrite dom_insert_L. set_solver.
    + apply Hfresh. unfold dd_val. by rewrite Es.
  - unfold dd_get. rewrite Es, lookup_empty, (insert_insert_eq st.2).
    apply (Hfresh ∅). unfold dd_val. by rewrite Es.
Qed.

(** Any run of in-place label additions on a state apart from [h] leaves
    every object of [h] as it is. *)
Lemma add_labels_apart h st (es : list (string * string * string)) :
  apart_from h st → apart_from h (fold_left add_label es st).
Proof.
  revert st. induction es as [|e es IH]; intros st Hst; simpl; [done|].
  by apply IH, add_label_apart.
Qed.

Lemma apart_view h oe st p c :
  in_store h oe → apart_from h st → view (st.1, oe) p c = view (h, oe) p c.
Proof.
  intros Hin [Hold _]. unfold view. simpl.
  destruct (entry oe p c) as [l|] eqn:El; [|done]. simpl. f_equal.
  unfold deref. by rewrite (Hold l (Hin p c l El)).
Qed.
End Objects.

(** The loose extraction of the component seed A on the Scenario A graph:
    the returned graph, and the source graph as the call leaves it. *)
Definition seed_A_result : RepositoryGraph :=
  (default (new_graph, new_graph)
     (make_subgraph_related_to scenario_A_graph ["A"] false)).1.

Definition seed_A_source : RepositoryGraph :=
  (default (new_graph, new_graph)
     (make_subgraph_related_to scenario_A_graph ["A"] false)).2.

(** C9, as stated, fails: after the extraction the forward map and the
    reverse index of the source graph are not what they were.  The scan read
    [edges] at the sink C and [reverse_edges] at the root A, and each read
    stored an empty default entry. *)
Lemma extraction_changes_source_maps :
  make_subgraph_related_to scenario_A_graph ["A"] false = Some (seed_A_result, seed_A_source) ∧
  (map_to_list (edges scenario_A_graph)).*1 = ["A"; "B"] ∧
  (map_to_list (edges seed_A_source)).*1 = ["C"; "A"; "B"] ∧
  edges seed_A_source !! "C" = Some ∅ ∧
  edges seed_A_source ≠ edges scenario_A_graph ∧
  reverse_edges scenario_A_graph !! "A" = None ∧
  reverse_edges seed_A_source !! "A" = Some ∅ ∧
  reverse_edges seed_A_source ≠ reverse_edges scenario_A_graph.
Proof. split_and!; compute_done. Qed.

(** C9, amended.  Extraction returns a new graph and keeps the content of
    the source graph: the node set is the same; every entry of the forward
    map and of the reverse index that was there before the call is there
    after it with the same value; every label set and every reverse set, an
    absent entry read as empty, is the same, and so are the edge triples.
    The label sets of the returned graph are new objects holding copies: on
    any store holding the label sets of the source graph, the restricted
    forward map names no object of that store, and any later run of label
    additions on it leaves every label set of the source graph as it was. *)
Theorem extraction_keeps_source_content
    (g : RepositoryGraph) (ents : list string) (tight : bool) :
  ∃ r g',
    make_subgraph_related_to g ents tight = Some (r, g') ∧
    actors g' = actors g ∧
    (∀ p tm, edges g !! p = Some tm → edges g' !! p = Some tm) ∧
    (∀ c R, reverse_edges g !! c = Some R → reverse_edges g' !! c = Some R) ∧
    (∀ p c, edge_labels g' p c = edge_labels g p c) ∧
    (∀ p, dd_val (edges g') p = dd_val (edges g) p) ∧
    (∀ c, dd_val (reverse_edges g') c = dd_val (reverse_edges g) c) ∧
    (∀ e, e ∈ iter_edges g' ↔ e ∈ iter_edges g) ∧
    ∀ (h : gmap nat (gset string)) (oe : gmap string (gmap string nat)),
      Objects.in_store h oe →
      (∀ p c, Objects.view (h, oe) p c = edge_labels g' p c) →
      (∀ p c, Objects.view (Objects.restrict_edges h oe (actors r)) p c = edge_labels r p c) ∧
      (∀ p c l, Objects.entry (Objects.restrict_edges h oe (actors r)).2 p c = Some l →
                l ∉ dom h) ∧
      (∀ es p c,
         Objects.view
           ((fold_left Objects.add_label es (Objects.restrict_edges h oe (actors r))).1, oe) p c
         = Objects.view (h, oe) p c).
Proof.
  destruct (seen_actors_for_spec g ents tight) as (S & g' & E & Hr & _).
  exists (restrict_to g' S), g'.
  split; [unfold make_subgraph_related_to; by rewrite E|].
  pose proof Hr as (Ha & He & Hrev).
  split; [done|]. split; [|split; [|split; [|split; [|split; [|split]]]]].
  - intros p tm Hp. destruct (He p) as [->|[? _]]; congruence.
  - intros c R Hc. destruct (Hrev c) as [->|[? _]]; congruence.
  - intros p c. by apply reads_only_edge_labels.
  - intros p. by apply dd_extends_val.
  - intros c. by apply dd_extends_val.
  - intros [[p m] c]. by rewrite !elem_of_iter_edges, (reads_only_labels _ _ p c Hr).
  - intros h oe Hin Hview.
    destruct (restrict_to_spec g' S) as (H1 & _ & H3). rewrite H3.
    destruct (Objects.restrict_edges_spec h oe S Hin) as [Hapart Hv].
    split; [|split].
    + intros p c. by rewrite Hv, H1, Hview.
    + intros p c l Hl. by apply Hapart in Hl as [? _].
    + intros es p c. apply Objects.apart_view; [done|]. by apply Objects.add_labels_apart.
Qed.

(** A store for the Scenario A graph: object 0 is the label set of A -> B,
    object 1 the label set of B -> C. *)
Definition scenario_A_store : gmap nat (gset string) :=
  <[0 := {["X"]}]> (<[1 := {["Y"]}]> ∅).

Definition scenario_A_objects : gmap string (gmap string nat) :=
  <["A" := {["B" := 0]}]> (<["B" := {["C" := 1]}]> ∅).

Example scenario_A_restrict_objects :
  map_to_list (Objects.restrict_edges scenario_A_store scenario_A_objects
                 (actors seed_A_result)).2
  = [("A", {["B" := 2]}); ("B", {["C" := 3]})].
Proof. vm_compute. reflexivity. Qed.

(** * Further properties of the graph, the scans and the extraction *)

(** ** [add_edge] and [iter_edges] *)

Lemma graph_eq (g1 g2 : RepositoryGraph) :
  edges g1 = edges g2 → reverse_edges g1 = reverse_edges g2 → actors g1 = actors g2 →
  g1 = g2.
Proof. destruct g1, g2. simpl. by intros -> -> ->. Qed.

Lemma dd_val_edges_add_edge g s m t p :
  dd_val (edges (add_edge g s m t)) p =
  if decide (s = p) then <[t := {[m]} ∪ labels g s t]> (dd_val (edges g) s)
  else dd_val (edges g) p.
Proof. by rewrite edges_add_edge, dd_val_insert. Qed.

Lemma add_edge_idem (g : RepositoryGraph) (s m t : string) :
  add_edge (add_edge g s m t) s m t = add_edge g s m t.
Proof.
  apply graph_eq.
  - rewrite (edges_add_edge (add_edge g s m t)), labels_add_edge, dd_val_edges_add_edge.
    rewrite !decide_True by done. rewrite edges_add_edge, !insert_insert_eq.
    do 2 f_equal. set_solver.
  - rewrite (reverse_edges_add_edge (add_edge g s m t)), preds_add_edge.
    rewrite decide_True by done. rewrite reverse_edges_add_edge, insert_insert_eq.
    f_equal. set_solver.
  - rewrite !actors_add_edge. set_solver.
Qed.

Lemma add_edge_comm (g : RepositoryGraph) (s1 m1 t1 s2 m2 t2 : string) :
  add_edge (add_edge g s1 m1 t1) s2 m2 t2 = add_edge (add_edge g s2 m2 t2) s1 m1 t1.
Proof.
  apply graph_eq.
  - rewrite (edges_add_edge (add_edge g s1 m1 t1)), (edges_add_edge (add_edge g s2 m2 t2)).
    rewrite !labels_add_edge, !dd_val_edges_add_edge, !edges_add_edge.
    destruct (decide (s1 = s2)) as [->|Hs].
    + rewrite !insert_insert_eq. f_equal.
      destruct (decide (t1 = t2)) as [->|Ht];
        repeat (case_decide; try (exfalso; naive_solver)).
      * rewrite !insert_insert_eq. f_equal. set_solver.
      * by rewrite insert_insert_ne.
    + repeat (case_decide; try (exfalso; naive_solver)).
      by rewrite insert_insert_ne.
  - rewrite (reverse_edges_add_edge (add_edge g s1 m1 t1)),
      (reverse_edges_add_edge (add_edge g s2 m2 t2)).
    rewrite !preds_add_edge, !reverse_edges_add_edge.
    destruct (decide (t1 = t2)) as [->|Ht];
      repeat (case_decide; try (exfalso; naive_solver)).
    + rewrite !insert_insert_eq. f_equal. set_solver.
    + by rewrite insert_insert_ne.
  - rewrite !actors_add_edge. set_solver.
Qed.

(** X1.  Adding a triple a second time changes nothing: forward map,
    reverse index and node set are those of the single insertion. *)
Theorem add_edge_idempotent (g : RepositoryGraph) (s m t : string) :
  add_edge (add_edge g s m t) s m t = add_edge g s m t.
Proof. apply add_edge_idem. Qed.

(** X2.  Insertions commute: adding two triples in either order gives the
    same graph. *)
Theorem add_edge_commute (g : RepositoryGraph) (s1 m1 t1 s2 m2 t2 : string) :
  add_edge (add_edge g s1 m1 t1) s2 m2 t2 = add_edge (add_edge g s2 m2 t2) s1 m1 t1.
Proof. apply add_edge_comm. Qed.

(** X3.  What [add_edge] stores can be read back, and nothing else
    changes: the triples of the new graph are the added triple and the old
    ones, the reverse set of a name gains the source exactly at the target,
    and the node set gains the two ends. *)
Theorem add_edge_read_back (g : RepositoryGraph) (s m t : string) :
  (∀ p m' c, (p, m', c) ∈ iter_edges (add_edge g s m t) ↔
             (p, m', c) = (s, m, t) ∨ (p, m', c) ∈ iter_edges g) ∧
  (∀ p c, p ∈ dd_val (reverse_edges (add_edge g s m t)) c ↔
          (p = s ∧ c = t) ∨ p ∈ dd_val (reverse_edges g) c) ∧
  (∀ a, a ∈ actors (add_edge g s m t) ↔ a = s ∨ a = t ∨ a ∈ actors g).
Proof.
  split; [|split].
  - intros p m' c. rewrite !elem_of_iter_edges, labels_add_edge.
    case_decide as Hd.
    + destruct Hd as [<- <-]. rewrite elem_of_union, elem_of_singleton. naive_solver.
    + naive_solver.
  - intros p c. pose proof (preds_add_edge g s m t c) as Hp. unfold preds in Hp.
    rewrite Hp. case_decide; [subst; set_solver | naive_solver].
  - intros a. rewrite actors_add_edge. set_solver.
Qed.

(** X4.  [iter_edges] yields each combination of an entry of the forward
    map and one of its labels exactly once: no triple is yielded twice, and
    (p, m, c) is yielded exactly when the forward map has an entry for
    (p, c) whose label set contains m. *)
Theorem iter_edges_once (g : RepositoryGraph) :
  NoDup (iter_edges g) ∧
  ∀ p m c, (p, m, c) ∈ iter_edges g ↔
           ∃ targets msgs, edges g !! p = Some targets ∧ targets !! c = Some msgs ∧ m ∈ msgs.
Proof.
  split; [apply NoDup_iter_edges|].
  intros p m c. by rewrite elem_of_iter_edges, labels_lookup.
Qed.

(** ** The builder does not depend on the order of its loops *)

(** [graph.add_edge(producer, msg_type, consumer)] on a triple. *)
Definition add_triple (g : RepositoryGraph) (e : string * string * string) : RepositoryGraph :=
  let '(p, m, c) := e in add_edge g p m c.

Lemma fold_add_triple_perm (l l' : list (string * string * string)) :
  l ≡ₚ l' → ∀ g, fold_left add_triple l g = fold_left add_triple l' g.
Proof.
  induction 1 as [|x l l' _ IH|[[p1 m1] c1] [[p2 m2] c2] l|l1 l2 l3 _ IH1 _ IH2]; intros g.
  - done.
  - simpl. apply IH.
  - simpl. by rewrite add_edge_comm.
  - by rewrite IH1, IH2.
Qed.

Lemma fold_add_triple_repeat (x : string * string * string) l g :
  x ∈ l → fold_left add_triple (x :: l) g = fold_left add_triple l g.
Proof.
  intros Hin. apply elem_of_Permutation in Hin as [l' Hl'].
  rewrite (fold_add_triple_perm (x :: l) (x :: x :: l')) by by rewrite Hl'.
  rewrite (fold_add_triple_perm l (x :: l')) by done.
  destruct x as [[p m] c]. simpl. by rewrite add_edge_idem.
Qed.

Lemma fold_add_triple_remove_dups l g :
  fold_left add_triple l g = fold_left add_triple (remove_dups l) g.
Proof.
  revert g. induction l as [|x l IH]; intros g; [done|].
  cbn [remove_dups]. case_decide as Hx.
  - rewrite fold_add_triple_repeat by done. apply IH.
  - simpl. apply IH.
Qed.

(** Two enumerations of the same triples, in any order and with any
    repetitions, build the same graph. *)
Lemma fold_add_triple_same_elements l l' g :
  (∀ x, x ∈ l ↔ x ∈ l') → fold_left add_triple l g = fold_left add_triple l' g.
Proof.
  intros Hsame. rewrite (fold_add_triple_remove_dups l), (fold_add_triple_remove_dups l').
  apply fold_add_triple_perm. apply NoDup_Permutation; [apply NoDup_remove_dups..|].
  intros x. by rewrite !elem_of_remove_dups.
Qed.

(** The triples the builder adds, in the order of its loops. *)
Definition builder_triples (producers_table consumers_table : gmap string (gset string))
  : list (string * string * string) :=
  msg_type ← elements (dom producers_table ∩ dom consumers_table);
  '(consumer, producer) ← list_prod (elements (dd_val consumers_table msg_type))
                                     (elements (dd_val producers_table msg_type));
  [(producer, msg_type, consumer)].

Lemma fold_left_bind {A B C : Type} (f : A → C → A) (k : B → list C) (l : list B) (a : A) :
  fold_left f (l ≫= k) a = fold_left (λ acc x, fold_left f (k x) acc) l a.
Proof.
  revert a. induction l as [|x l IH]; intros a; [done|].
  rewrite bind_cons, fold_left_app. apply IH.
Qed.

Lemma construct_graph_as_fold defs :
  construct_graph_from_actors defs =
  fold_left add_triple (builder_triples (producers_table defs) (consumers_table defs)) new_graph.
Proof.
  unfold construct_graph_from_actors, builder_triples, producers_table, consumers_table.
  destruct (build_tables defs) as [PT CT]. simpl.
  rewrite fold_left_bind. generalize new_graph.
  induction (elements (dom PT ∩ dom CT)) as [|m ms IH]; intros g; [done|].
  simpl. rewrite <- IH. f_equal. rewrite fold_left_bind.
  generalize (list_prod (elements (dd_val CT m)) (elements (dd_val PT m))). clear.
  intros l. revert g. induction l as [|[c p] l IHl]; intros g; [done|].
  simpl. apply IHl.
Qed.

Lemma elem_of_builder_triples (PT CT : gmap string (gset string)) p m c :
  (p, m, c) ∈ builder_triples PT CT ↔ p ∈ dd_val PT m ∧ c ∈ dd_val CT m.
Proof.
  unfold builder_triples. rewrite list_elem_of_bind. split.
  - intros (m' & Hin & _). apply list_elem_of_bind in Hin as ([c' p'] & Hin & Hprod).
    apply list_elem_of_singleton in Hin. simplify_eq.
    rewrite <- list_cprod_list_prod, list_elem_of_cprod in Hprod. simpl in Hprod.
    rewrite !elem_of_elements in Hprod. tauto.
  - intros [Hp Hc]. exists m. split.
    + apply list_elem_of_bind. exists (c, p). split; [by apply list_elem_of_singleton|].
      rewrite <- list_cprod_list_prod, list_elem_of_cprod. simpl.
      rewrite !elem_of_elements. tauto.
    + apply elem_of_elements, elem_of_intersection. eauto using dd_val_elem_dom.
Qed.

(** X5.  The built graph does not depend on the order in which the
    message types, the consumers and the producers are iterated: folding
    [add_edge] over any list that enumerates the pairs of a producer and a
    consumer of each message type, in any order and with any repetitions,
    gives the graph of [construct_graph_from_actors]. *)
Theorem construct_graph_any_iteration_order
    (defs : list ActorDefinition) (l : list (string * string * string)) :
  (∀ p m c, (p, m, c) ∈ l ↔
            p ∈ dd_val (producers_table defs) m ∧ c ∈ dd_val (consumers_table defs) m) →
  fold_left (λ graph '(producer, msg_type, consumer), add_edge graph producer msg_type consumer)
            l new_graph
  = construct_graph_from_actors defs.
Proof.
  intros Hl. rewrite construct_graph_as_fold.
  apply (fold_add_triple_same_elements l). intros [[p m] c].
  by rewrite Hl, elem_of_builder_triples.
Qed.

Lemma construct_graph_any_iteration_order_witness :
  fold_left (λ graph '(producer, msg_type, consumer), add_edge graph producer msg_type consumer)
            [("B", "Y", "C"); ("A", "X", "B"); ("B", "Y", "C")] new_graph
  = construct_graph_from_actors scenario_A.
Proof.
  apply (construct_graph_any_iteration_order scenario_A).
  intros p m c. rewrite <- construct_graph_tables.
  change (construct_graph_from_actors scenario_A) with scenario_A_graph.
  rewrite scenario_A_edges. rewrite !elem_of_cons, !elem_of_nil. tauto.
Defined.

(** X6.  The built graph depends only on which definitions are in the
    list: two lists with the same definitions, in any order and with any
    repetitions, build the same graph. *)
Theorem construct_graph_same_definitions (defs defs' : list ActorDefinition) :
  (∀ d, d ∈ defs ↔ d ∈ defs') →
  construct_graph_from_actors defs = construct_graph_from_actors defs'.
Proof.
  intros Hsame. rewrite (construct_graph_as_fold defs), (construct_graph_as_fold defs').
  apply fold_add_triple_same_elements. intros [[p m] c].
  rewrite !elem_of_builder_triples.
  destruct (elem_of_build_tables defs p m) as [-> _].
  destruct (elem_of_build_tables defs c m) as [_ ->].
  destruct (elem_of_build_tables defs' p m) as [-> _].
  destruct (elem_of_build_tables defs' c m) as [_ ->].
  by setoid_rewrite Hsame.
Qed.

Lemma construct_graph_same_definitions_witness :
  construct_graph_from_actors scenario_A = construct_graph_from_actors (reverse scenario_A).
Proof.
  apply (construct_graph_same_definitions scenario_A (reverse scenario_A)).
  intros d. by rewrite elem_of_reverse.
Defined.

(** X7.  The nodes of the built graph, read off the definitions: a name is
    a node exactly when a definition of that name produces a message type
    that some definition consumes, or consumes one that some definition
    produces.  In particular every node is the name of a definition, and a
    definition exchanging no message with anyone gives no node. *)
Theorem construct_graph_nodes (defs : list ActorDefinition) (a : string) :
  (a ∈ actors (construct_graph_from_actors defs) ↔
   ∃ m, ((∃ d, d ∈ defs ∧ class_name d = a ∧ m ∈ produces d) ∧
         (∃ d', d' ∈ defs ∧ m ∈ consumes d')) ∨
        ((∃ d, d ∈ defs ∧ class_name d = a ∧ m ∈ consumes d) ∧
         (∃ d', d' ∈ defs ∧ m ∈ produces d'))) ∧
  (a ∈ actors (construct_graph_from_actors defs) → a ∈ class_name <$> defs).
Proof.
  pose proof (wf_actors _ (graph_wf_construct defs) a) as Hact.
  assert (a ∈ actors (construct_graph_from_actors defs) ↔
          ∃ p m c, ((∃ dp, dp ∈ defs ∧ class_name dp = p ∧ m ∈ produces dp) ∧
                    (∃ dc, dc ∈ defs ∧ class_name dc = c ∧ m ∈ consumes dc)) ∧
                   (a = p ∨ a = c)) as Hdefs.
  { rewrite Hact. split; intros (p & m & c & Hm & Ha); exists p, m, c; (split; [|done]).
    - by apply construct_graph_edges, elem_of_iter_edges.
    - by apply elem_of_iter_edges, construct_graph_edges. }
  clear Hact. split.
  - rewrite Hdefs. split.
    + intros (p & m & c & [(dp & ? & ? & ?) (dc & ? & ? & ?)] & [->| ->]); exists m.
      * left. split; [exists dp | exists dc]; done.
      * right. split; [exists dc | exists dp]; done.
    + intros (m & [[(d & ? & ? & ?) (d' & ? & ?)]|[(d & ? & ? & ?) (d' & ? & ?)]]).
      * exists a, m, (class_name d'). split; [|by left]. split; [exists d | exists d']; done.
      * exists (class_name d'), m, a. split; [|by right]. split; [exists d' | exists d]; done.
  - rewrite Hdefs. intros (p & m & c & [(dp & ? & ? & ?) (dc & ? & ? & ?)] & [->| ->]);
      apply list_elem_of_fmap; eauto.
Qed.

(** ** The scans as reachability *)

(** One step along the forward map: [y] is a key of [self.edges[x]]. *)
Definition forward_step (g : RepositoryGraph) (x y : string) : Prop := y ∈ succs g x.

(** One step along the reverse index: [y] is in [self.reverse_edges[x]]. *)
Definition backward_step (g : RepositoryGraph) (x y : string) : Prop := y ∈ preds g x.

Lemma reach_rtc (nbrs : string → list string) (R : relation string) (seeds : gset string) a :
  (∀ x y, y ∈ nbrs x ↔ R x y) →
  reach nbrs seeds a ↔ ∃ s, s ∈ seeds ∧ rtc R s a.
Proof.
  intros HR. split.
  - induction 1 as [a Ha|a b _ (s & Hs & Hrtc) Hb].
    + exists a. split; [done | apply rtc_refl].
    + exists s. split; [done|]. eapply rtc_r; [done|]. by apply HR.
  - intros (s & Hs & Hrtc). revert a Hrtc. apply rtc_ind_r; [by apply reach_seed|].
    intros y z _ Hyz IH. eapply reach_step; [done | by apply HR].
Qed.

Lemma forward_scan_rtc (g : RepositoryGraph) (seeds : gset string) :
  ∃ visited g',
    _forward_scan g seeds = Some (visited, g') ∧ reads_only g g' ∧
    ∀ a, a ∈ visited ↔ ∃ s, s ∈ seeds ∧ rtc (forward_step g) s a.
Proof.
  destruct (forward_scan_spec g seeds) as (v & g' & E & Hr & Hv).
  exists v, g'. split; [done|]. split; [done|]. intros a. rewrite Hv.
  apply reach_rtc. intros x y. apply elem_of_forward_nbrs.
Qed.

Lemma backward_scan_rtc (g : RepositoryGraph) (seeds : gset string) :
  ∃ visited g',
    _backward_scan g seeds = Some (visited, g') ∧ reads_only g g' ∧
    ∀ a, a ∈ visited ↔ ∃ s, s ∈ seeds ∧ rtc (backward_step g) s a.
Proof.
  destruct (backward_scan_spec g seeds) as (v & g' & E & Hr & Hv).
  exists v, g'. split; [done|]. split; [done|]. intros a. rewrite Hv.
  apply reach_rtc. intros x y. apply elem_of_backward_nbrs.
Qed.

Lemma dfs_graph_scan_rtc (g : RepositoryGraph) (seeds : gset string) :
  ∃ visited g',
    _dfs_graph_scan g seeds = Some (visited, g') ∧ reads_only g g' ∧
    ∀ a, a ∈ visited ↔
         ∃ s, s ∈ seeds ∧ rtc (λ x y, forward_step g x y ∨ backward_step g x y) s a.
Proof.
  destruct (dfs_graph_scan_spec g seeds) as (v & g' & E & Hr & Hv).
  exists v, g'. split; [done|]. split; [done|]. intros a. rewrite Hv.
  apply reach_rtc. intros x y. apply elem_of_dfs_nbrs.
Qed.

(** X8.  [_forward_scan] returns for every graph and seed set; the set it
    returns holds exactly the names reachable from a seed by following keys
    of the forward map, and the graph is left with the same content. *)
Theorem forward_scan_reachable (g : RepositoryGraph) (seeds : gset string) :
  ∃ visited g',
    _forward_scan g seeds = Some (visited, g') ∧ reads_only g g' ∧
    ∀ a, a ∈ visited ↔ ∃ s, s ∈ seeds ∧ rtc (forward_step g) s a.
Proof. apply forward_scan_rtc. Qed.

(** X9.  [_backward_scan] returns for every graph and seed set; the set it
    returns holds exactly the names reachable from a seed by following the
    reverse index, and the graph is left with the same content. *)
Theorem backward_scan_reachable (g : RepositoryGraph) (seeds : gset string) :
  ∃ visited g',
    _backward_scan g seeds = Some (visited, g') ∧ reads_only g g' ∧
    ∀ a, a ∈ visited ↔ ∃ s, s ∈ seeds ∧ rtc (backward_step g) s a.
Proof. apply backward_scan_rtc. Qed.

(** X10.  [_dfs_graph_scan] returns for every graph and seed set; the set
    it returns holds exactly the names reachable from a seed by steps along
    the forward map or along the reverse index, and the graph is left with
    the same content. *)
Theorem dfs_graph_scan_reachable (g : RepositoryGraph) (seeds : gset string) :
  ∃ visited g',
    _dfs_graph_scan g seeds = Some (visited, g') ∧ reads_only g g' ∧
    ∀ a, a ∈ visited ↔
         ∃ s, s ∈ seeds ∧ rtc (λ x y, forward_step g x y ∨ backward_step g x y) s a.
Proof. apply dfs_graph_scan_rtc. Qed.

(** An edge of the graph, whatever its label. *)
Definition edge (g : RepositoryGraph) (x y : string) : Prop :=
  ∃ m, (x, m, y) ∈ iter_edges g.

Lemma rtc_flip_iff (R : relation string) x y : rtc (flip R) x y ↔ rtc R y x.
Proof.
  split.
  - induction 1 as [|x z y Hxz _ IH]; [apply rtc_refl|]. eapply rtc_r; eauto.
  - induction 1 as [|y z x Hyz _ IH]; [apply rtc_refl|]. eapply rtc_r; eauto.
Qed.

Lemma rtc_iff (R R' : relation string) x y :
  (∀ a b, R a b ↔ R' a b) → rtc R x y ↔ rtc R' x y.
Proof.
  intros HR. split; induction 1 as [|a b c Hab _ IH]; try apply rtc_refl;
    (eapply rtc_l; [by apply HR | done]).
Qed.

Lemma produced_steps g :
  produced g →
  (∀ x y, forward_step g x y ↔ edge g x y) ∧ (∀ x y, backward_step g x y ↔ edge g y x).
Proof.
  intros Hwf%produced_wf. unfold forward_step, backward_step, edge. split; intros x y.
  - rewrite elem_of_succs, (wf_entry_label g x y Hwf).
    by setoid_rewrite elem_of_iter_edges.
  - rewrite (wf_reverse g Hwf). by setoid_rewrite elem_of_iter_edges.
Qed.

(** X11.  On a graph produced by the public operations the three scans
    compute reachability along the edges: the forward scan returns the names
    reachable from a seed, the backward scan the names from which a seed is
    reachable, and the undirected scan the names connected to a seed by
    edges taken in either direction. *)
Theorem produced_scans_follow_edges (g : RepositoryGraph) (seeds : gset string) :
  produced g →
  (∃ visited g', _forward_scan g seeds = Some (visited, g') ∧
     ∀ a, a ∈ visited ↔ ∃ s, s ∈ seeds ∧ rtc (edge g) s a) ∧
  (∃ visited g', _backward_scan g seeds = Some (visited, g') ∧
     ∀ a, a ∈ visited ↔ ∃ s, s ∈ seeds ∧ rtc (edge g) a s) ∧
  (∃ visited g', _dfs_graph_scan g seeds = Some (visited, g') ∧
     ∀ a, a ∈ visited ↔ ∃ s, s ∈ seeds ∧ rtc (λ x y, edge g x y ∨ edge g y x) s a).
Proof.
  intros Hp. destruct (produced_steps g Hp) as [Hf Hb]. split; [|split].
  - destruct (forward_scan_rtc g seeds) as (v & g' & E & _ & Hv).
    exists v, g'. split; [done|]. intros a. rewrite Hv.
    by setoid_rewrite (rtc_iff (forward_step g) (edge g) _ a Hf).
  - destruct (backward_scan_rtc g seeds) as (v & g' & E & _ & Hv).
    exists v, g'. split; [done|]. intros a. rewrite Hv.
    split; intros (s & Hs & Hrtc); exists s; (split; [done|]).
    + apply rtc_flip_iff. by apply (rtc_iff (backward_step g) (flip (edge g)) _ _ Hb).
    + apply (rtc_iff (backward_step g) (flip (edge g)) _ _ Hb). by apply rtc_flip_iff.
  - destruct (dfs_graph_scan_rtc g seeds) as (v & g' & E & _ & Hv).
    exists v, g'. split; [done|]. intros a. rewrite Hv.
    assert (∀ x y, forward_step g x y ∨ backward_step g x y ↔ edge g x y ∨ edge g y x) as Hfb
      by (intros x y; by rewrite Hf, Hb).
    by setoid_rewrite (rtc_iff _ _ _ a Hfb).
Qed.

Lemma produced_scans_follow_edges_witness :
  ∃ visited g', _backward_scan scenario_A_graph {["C"]} = Some (visited, g') ∧
     ∀ a, a ∈ visited ↔ ∃ s, s ∈ ({["C"]} : gset string) ∧ rtc (edge scenario_A_graph) a s.
Proof.
  apply (produced_scans_follow_edges scenario_A_graph {["C"]}). apply produced_construct.
Defined.

(** ** The extracted subgraph *)

(** What [make_subgraph_related_to] returns, in one place: it returns; the
    source graph keeps its content; the nodes of the result are the seen
    names of the mode; its triples and reverse sets are those of the source
    between seen names. *)
Lemma make_subgraph_result g ents tight :
  ∃ r g',
    make_subgraph_related_to g ents tight = Some (r, g') ∧ reads_only g g' ∧
    (∀ a, a ∈ actors r ↔ seen_in_mode g ents tight a) ∧
    (∀ p c, edge_labels r p c =
            if decide (p ∈ actors r ∧ c ∈ actors r) then edge_labels g p c else None) ∧
    (∀ p m c, (p, m, c) ∈ iter_edges r ↔
              (p, m, c) ∈ iter_edges g ∧ p ∈ actors r ∧ c ∈ actors r) ∧
    (∀ p c, p ∈ preds r c ↔ p ∈ actors r ∧ c ∈ actors r ∧ is_Some (edge_labels g p c)).
Proof.
  destruct (seen_actors_for_spec g ents tight) as (S & g' & E & Hr & HS).
  exists (restrict_to g' S), g'.
  split; [unfold make_subgraph_related_to; by rewrite E|]. split; [done|].
  destruct (restrict_to_spec g' S) as (H1 & H2 & H3). rewrite H3.
  split; [done|]. split; [|split].
  - intros p c. by rewrite H1, (reads_only_edge_labels _ _ p c Hr).
  - intros p m c. rewrite !elem_of_iter_edges, labels_restrict_to,
      (reads_only_labels _ _ p c Hr). tauto.
  - intros p c. by rewrite H2, (reads_only_edge_labels _ _ p c Hr).
Qed.

Lemma seen_in_mode_seed g ents tight a :
  a ∈ (_collect_actors_for_entities g ents).1 ∪ (_collect_actors_for_entities g ents).2 →
  seen_in_mode g ents tight a.
Proof.
  unfold seen_in_mode. destruct (_collect_actors_for_entities g ents) as [F B]. simpl.
  intros [Ha|Ha]%elem_of_union; destruct tight.
  - left. by apply reach_seed.
  - apply reach_seed. set_solver.
  - right. by apply reach_seed.
  - apply reach_seed. set_solver.
Qed.

(** X12.  The seeds are kept, in both modes: an entity that is a node of
    the graph is a node of the extracted graph, and for an entity that is
    not a node, every edge carrying it as label is an edge of the extracted
    graph. *)
Theorem make_subgraph_keeps_seeds (g : RepositoryGraph) (ents : list string) (tight : bool) :
  ∃ r g',
    make_subgraph_related_to g ents tight = Some (r, g') ∧
    (∀ e, e ∈ ents → e ∈ actors g → e ∈ actors r) ∧
    (∀ e p c, e ∈ ents → ¬ (e ∈ actors g) → (p, e, c) ∈ iter_edges g →
              (p, e, c) ∈ iter_edges r).
Proof.
  destruct (make_subgraph_result g ents tight) as (r & g' & E & _ & HS & _ & Ht & _).
  destruct (collect_actors_spec g ents) as [HF HB].
  exists r, g'. split; [done|]. split.
  - intros e He Ha. apply HS, seen_in_mode_seed, elem_of_union. left.
    apply HF. exists e. split; [done|]. by left.
  - intros e p c He Hn Hin. apply Ht. split; [done|].
    apply elem_of_iter_edges in Hin. split; apply HS, seen_in_mode_seed, elem_of_union.
    + right. apply HB. exists e. split; [done|]. right. eauto.
    + left. apply HF. exists e. split; [done|]. right. eauto.
Qed.

Lemma collect_actors_same_entities g ents ents' :
  (∀ e, e ∈ ents ↔ e ∈ ents') →
  _collect_actors_for_entities g ents = _collect_actors_for_entities g ents'.
Proof.
  intros Hsame.
  destruct (collect_actors_spec g ents) as [HF HB].
  destruct (collect_actors_spec g ents') as [HF' HB'].
  destruct (_collect_actors_for_entities g ents) as [F B].
  destruct (_collect_actors_for_entities g ents') as [F' B']. simpl in *.
  f_equal; apply set_eq; intros x.
  - rewrite HF, HF'. by setoid_rewrite Hsame.
  - rewrite HB, HB'. by setoid_rewrite Hsame.
Qed.

(** X13.  Only the set of entities matters: two entity lists with the same
    members, in any order and with any repetitions, give the same extracted
    graph. *)
Theorem make_subgraph_same_entities
    (g : RepositoryGraph) (ents ents' : list string) (tight : bool) :
  (∀ e, e ∈ ents ↔ e ∈ ents') →
  make_subgraph_related_to g ents tight = make_subgraph_related_to g ents' tight.
Proof.
  intros Hsame. unfold make_subgraph_related_to, seen_actors_for.
  by rewrite (collect_actors_same_entities g ents ents' Hsame).
Qed.

Lemma make_subgraph_same_entities_witness :
  make_subgraph_related_to scenario_A_graph ["Y"; "A"; "Y"] true
  = make_subgraph_related_to scenario_A_graph ["A"; "Y"] true.
Proof.
  apply (make_subgraph_same_entities scenario_A_graph ["Y"; "A"; "Y"] ["A"; "Y"] true).
  intros e. rewrite !elem_of_cons, !elem_of_nil. tauto.
Defined.

(** X14.  More entities give a larger subgraph: when every entity of one
    list is in another, the nodes and the edges extracted for the first
    list are among those extracted for the second, in the same mode. *)
Theorem make_subgraph_monotone
    (g : RepositoryGraph) (ents ents' : list string) (tight : bool) :
  (∀ e, e ∈ ents → e ∈ ents') →
  ∃ r g1 r' g2,
    make_subgraph_related_to g ents tight = Some (r, g1) ∧
    make_subgraph_related_to g ents' tight = Some (r', g2) ∧
    actors r ⊆ actors r' ∧
    ∀ e, e ∈ iter_edges r → e ∈ iter_edges r'.
Proof.
  intros Hsub.
  destruct (make_subgraph_result g ents tight) as (r & g1 & E & _ & HS & _ & Ht & _).
  destruct (make_subgraph_result g ents' tight) as (r' & g2 & E' & _ & HS' & _ & Ht' & _).
  exists r, g1, r', g2. split; [done|]. split; [done|].
  assert (actors r ⊆ actors r') as Hnodes.
  { intros a Ha. apply HS'. apply HS in Ha. unfold seen_in_mode in *.
    destruct (collect_actors_spec g ents) as [HF HB].
    destruct (collect_actors_spec g ents') as [HF' HB'].
    destruct (_collect_actors_for_entities g ents) as [F B].
    destruct (_collect_actors_for_entities g ents') as [F' B']. simpl in *.
    assert (F ⊆ F') as HFF.
    { intros x Hx. apply HF'. apply HF in Hx as (e & He & Hcase). exists e. auto. }
    assert (B ⊆ B') as HBB.
    { intros x Hx. apply HB'. apply HB in Hx as (e & He & Hcase). exists e. auto. }
    destruct tight.
    - destruct Ha as [Ha|Ha]; [left | right]; (eapply reach_mono; [| |exact Ha]); auto.
    - eapply reach_mono; [| |exact Ha]; [set_solver | auto]. }
  split; [done|]. intros [[p m] c] Hin. apply Ht in Hin as (Hin & Hp & Hc).
  apply Ht'. auto.
Qed.

Lemma make_subgraph_monotone_witness :
  ∃ r g1 r' g2,
    make_subgraph_related_to scenario_A_graph ["B"] true = Some (r, g1) ∧
    make_subgraph_related_to scenario_A_graph ["A"; "B"] true = Some (r', g2) ∧
    actors r ⊆ actors r' ∧
    ∀ e, e ∈ iter_edges r → e ∈ iter_edges r'.
Proof.
  apply (make_subgraph_monotone scenario_A_graph ["B"] ["A"; "B"] true).
  intros e. rewrite !elem_of_cons, !elem_of_nil. tauto.
Defined.

Lemma extracted_subgraph (g : RepositoryGraph) (ents : list string) (tight : bool) :
  produced g →
  ∃ r g',
    make_subgraph_related_to g ents tight = Some (r, g') ∧
    actors r ⊆ actors g ∧
    ∀ e, e ∈ iter_edges r → e ∈ iter_edges g.
Proof.
  intros Hp.
  destruct (make_subgraph_result g ents tight) as (r & g' & E & _ & _ & _ & Ht & _).
  exists r, g'. split; [done|].
  assert (∀ e, e ∈ iter_edges r → e ∈ iter_edges g) as Hedges.
  { intros [[p m] c] Hin. by apply Ht in Hin as (Hin & _). }
  split; [|done]. intros a Ha.
  apply (wf_actors r (produced_wf r (produced_subgraph g ents tight r g' Hp E))) in Ha
    as (p & m & c & Hm & Hends).
  apply (wf_actors g (produced_wf g Hp)). exists p, m, c. split; [|done].
  apply elem_of_iter_edges. apply Hedges. by apply elem_of_iter_edges.
Qed.

(** X15.  Extraction from a graph produced by the public operations gives
    a subgraph: every node of the result is a node of the source, and every
    edge of the result is an edge of the source. *)
Theorem make_subgraph_is_subgraph (g : RepositoryGraph) (ents : list string) (tight : bool) :
  produced g →
  ∃ r g',
    make_subgraph_related_to g ents tight = Some (r, g') ∧
    actors r ⊆ actors g ∧
    ∀ e, e ∈ iter_edges r → e ∈ iter_edges g.
Proof. apply extracted_subgraph. Qed.

Lemma make_subgraph_is_subgraph_witness :
  ∃ r g',
    make_subgraph_related_to scenario_A_graph ["Y"] true = Some (r, g') ∧
    actors r ⊆ actors scenario_A_graph ∧
    ∀ e, e ∈ iter_edges r → e ∈ iter_edges scenario_A_graph.
Proof.
  apply (make_subgraph_is_subgraph scenario_A_graph ["Y"] true). apply produced_construct.
Defined.

(** X16.  In loose mode, on a graph produced by the public operations, the
    extracted graph is closed under edges: an edge of the source with one
    end among the extracted nodes has both ends among them and is an edge
    of the extracted graph. *)
Theorem loose_subgraph_closed (g : RepositoryGraph) (ents : list string) :
  produced g →
  ∃ r g',
    make_subgraph_related_to g ents false = Some (r, g') ∧
    ∀ p m c, (p, m, c) ∈ iter_edges g → p ∈ actors r ∨ c ∈ actors r →
             (p, m, c) ∈ iter_edges r.
Proof.
  intros Hwf%produced_wf.
  destruct (make_subgraph_result g ents false) as (r & g' & E & _ & HS & _ & Ht & _).
  exists r, g'. split; [done|]. intros p m c Hin Hend. apply Ht. split; [done|].
  pose proof Hin as Hm. apply elem_of_iter_edges in Hm.
  assert (c ∈ succs g p) as Hc by (apply elem_of_succs; by eapply labels_is_Some).
  assert (p ∈ preds g c) as Hpc by (apply (wf_reverse g Hwf); by exists m).
  unfold seen_in_mode in HS. destruct (_collect_actors_for_entities g ents) as [F B].
  destruct Hend as [Hp|Hc'].
  - split; [done|]. apply HS. eapply reach_step; [by apply HS|].
    apply elem_of_dfs_nbrs. by left.
  - split; [|done]. apply HS. eapply reach_step; [by apply HS|].
    apply elem_of_dfs_nbrs. by right.
Qed.

Lemma loose_subgraph_closed_witness :
  ∃ r g',
    make_subgraph_related_to scenario_A_graph ["C"] false = Some (r, g') ∧
    ∀ p m c, (p, m, c) ∈ iter_edges scenario_A_graph → p ∈ actors r ∨ c ∈ actors r →
             (p, m, c) ∈ iter_edges r.
Proof. apply (loose_subgraph_closed scenario_A_graph ["C"]). apply produced_construct. Defined.

(** X17.  Extraction rebuilds the reverse index from the forward map: in
    the extracted graph of any source graph, even one whose reverse index
    disagrees with its forward map, p is in the reverse set of c exactly
    when the forward map has an entry for (p, c). *)
Theorem make_subgraph_reverse_index (g : RepositoryGraph) (ents : list string) (tight : bool) :
  ∃ r g',
    make_subgraph_related_to g ents tight = Some (r, g') ∧
    ∀ p c, p ∈ dd_val (reverse_edges r) c ↔ is_Some (edge_labels r p c).
Proof.
  destruct (make_subgraph_result g ents tight) as (r & g' & E & _ & _ & Hl & _ & Hp).
  exists r, g'. split; [done|]. intros p c. unfold preds in Hp. rewrite Hp, Hl.
  case_decide as Hd.
  - tauto.
  - split; [tauto|]. by intros [? ?].
Qed.

Lemma reach_within (nbrs nbrs' : string → list string) (seeds S : gset string) a :
  (∀ x, reach nbrs seeds x → x ∈ S) →
  (∀ x y, x ∈ S → y ∈ S → y ∈ nbrs x → y ∈ nbrs' x) →
  reach nbrs seeds a → reach nbrs' seeds a.
Proof.
  intros HS Hn. induction 1 as [a Ha|a b Hra IH Hb].
  - by apply reach_seed.
  - eapply reach_step; [done|]. apply Hn; [by apply HS | | done].
    apply HS. by eapply reach_step.
Qed.

(** X18.  Extraction is idempotent on graphs produced by the public
    operations: extracting again from the extracted graph, with the same
    entities and the same mode, gives a graph with the same nodes, the same
    entries of the forward map, the same reverse sets and the same edges. *)
Theorem make_subgraph_idempotent (g : RepositoryGraph) (ents : list string) (tight : bool) :
  produced g →
  ∃ r g' r2 r',
    make_subgraph_related_to g ents tight = Some (r, g') ∧
    make_subgraph_related_to r ents tight = Some (r2, r') ∧
    actors r2 = actors r ∧
    (∀ p c, edge_labels r2 p c = edge_labels r p c) ∧
    (∀ c, dd_val (reverse_edges r2) c = dd_val (reverse_edges r) c) ∧
    (∀ e, e ∈ iter_edges r2 ↔ e ∈ iter_edges r).
Proof.
  intros Hp. pose proof (produced_wf g Hp) as Hwf.
  destruct (make_subgraph_result g ents tight) as (r & g' & E & _ & HS & Hl & Ht & Hpr).
  destruct (make_subgraph_result r ents tight) as (r2 & r' & E2 & _ & HS2 & Hl2 & Ht2 & Hpr2).
  exists r, g', r2, r'. split; [done|]. split; [done|].
  pose proof (produced_wf r (produced_subgraph g ents tight r g' Hp E)) as Hwfr.
  assert (actors r ⊆ actors g) as Hsub.
  { intros a Ha. apply (wf_actors r Hwfr) in Ha as (p & m & c & Hm & Hends).
    apply (wf_actors g Hwf). exists p, m, c. split; [|done].
    apply elem_of_iter_edges. apply elem_of_iter_edges in Hm. by apply Ht in Hm as [? _]. }
  assert (∀ p m c, m ∈ labels r p c ↔ m ∈ labels g p c ∧ p ∈ actors r ∧ c ∈ actors r) as Hlab.
  { intros p m c. rewrite <- !elem_of_iter_edges. apply Ht. }
  (* the seeds are the same in [r] as in [g] *)
  assert (_collect_actors_for_entities r ents = _collect_actors_for_entities g ents) as Hseeds.
  { destruct (collect_actors_spec g ents) as [HF HB].
    destruct (collect_actors_spec r ents) as [HF' HB'].
    assert (∀ x, x ∈ (_collect_actors_for_entities g ents).1 ∪
                     (_collect_actors_for_entities g ents).2 → x ∈ actors r) as Hin
      by (intros x Hx; by apply HS, seen_in_mode_seed).
    destruct (_collect_actors_for_entities g ents) as [F B].
    destruct (_collect_actors_for_entities r ents) as [F' B']. simpl in *.
    assert (∀ e, e ∈ ents → e ∈ actors r ↔ e ∈ actors g) as Hnode.
    { intros e He. split; [apply Hsub|]. intros Ha. apply Hin, elem_of_union. left.
      apply HF. exists e. split; [done | by left]. }
    f_equal; apply set_eq; intros x.
    - rewrite HF, HF'. split.
      + intros (e & He & [[Ha ->]|[Hn [p Hm]]]); exists e; (split; [done|]).
        * left. split; [by apply Hnode | done].
        * right. split; [by rewrite <- Hnode|]. exists p. by apply Hlab in Hm as [? _].
      + intros (e & He & [[Ha ->]|[Hn [p Hm]]]); exists e; (split; [done|]).
        * left. split; [by apply Hnode | done].
        * right. split; [by rewrite Hnode|]. exists p. apply Hlab. split; [done|].
          split; apply Hin, elem_of_union.
          -- right. apply HB. exists e. split; [done|]. right. eauto.
          -- left. apply HF. exists e. split; [done|]. right. eauto.
    - rewrite HB, HB'. split.
      + intros (e & He & [[Ha ->]|[Hn [c Hm]]]); exists e; (split; [done|]).
        * left. split; [by apply Hnode | done].
        * right. split; [by rewrite <- Hnode|]. exists c. by apply Hlab in Hm as [? _].
      + intros (e & He & [[Ha ->]|[Hn [c Hm]]]); exists e; (split; [done|]).
        * left. split; [by apply Hnode | done].
        * right. split; [by rewrite Hnode|]. exists c. apply Hlab. split; [done|].
          split; apply Hin, elem_of_union.
          -- right. apply HB. exists e. split; [done|]. right. eauto.
          -- left. apply HF. exists e. split; [done|]. right. eauto. }
  (* steps of [r] are the steps of [g] between extracted nodes *)
  assert (∀ x y, y ∈ succs r x ↔ y ∈ succs g x ∧ x ∈ actors r ∧ y ∈ actors r) as Hsucc.
  { intros x y. rewrite !elem_of_succs, Hl. case_decide; [tauto|].
    split; [by intros [? ?] | tauto]. }
  assert (∀ x y, y ∈ preds r x ↔ y ∈ preds g x ∧ x ∈ actors r ∧ y ∈ actors r) as Hpred.
  { intros x y. rewrite Hpr, (wf_reverse g Hwf), <- (wf_entry_label g y x Hwf). tauto. }
  (* hence the seen set is the same *)
  assert (∀ a, seen_in_mode r ents tight a ↔ seen_in_mode g ents tight a) as Hseen.
  { intros a. split.
    - unfold seen_in_mode. rewrite Hseeds.
      destruct (_collect_actors_for_entities g ents) as [F B]. destruct tight.
      + intros [Ha|Ha]; [left | right]; (eapply reach_mono; [done| |exact Ha]); intros x y.
        * rewrite !elem_of_forward_nbrs, Hsucc. tauto.
        * rewrite !elem_of_backward_nbrs, Hpred. tauto.
      + apply reach_mono; [done|]. intros x y.
        rewrite !elem_of_dfs_nbrs, Hsucc, Hpred. tauto.
    - intros Ha. unfold seen_in_mode in *. rewrite Hseeds.
      destruct (_collect_actors_for_entities g ents) as [F B]. destruct tight.
      + destruct Ha as [Ha|Ha]; [left | right];
          (eapply (reach_within _ _ _ (actors r)); [| |exact Ha]).
        * intros x Hx. apply HS. by left.
        * intros x y Hx Hy. rewrite !elem_of_forward_nbrs, Hsucc. tauto.
        * intros x Hx. apply HS. by right.
        * intros x y Hx Hy. rewrite !elem_of_backward_nbrs, Hpred. tauto.
      + eapply (reach_within _ _ _ (actors r)); [| |exact Ha].
        * intros x Hx. by apply HS.
        * intros x y Hx Hy. rewrite !elem_of_dfs_nbrs, Hsucc, Hpred. tauto. }
  assert (actors r2 = actors r) as Hnodes.
  { apply set_eq. intros a. by rewrite HS2, Hseen, HS. }
  split; [done|]. split; [|split].
  - intros p c. rewrite Hl2, Hnodes. case_decide as Hd; [done|].
    rewrite Hl. by rewrite decide_False.
  - intros c. apply set_eq. intros p. fold (preds r2 c). fold (preds r c).
    rewrite Hpr2, Hnodes, Hpr, Hl. case_decide; tauto.
  - intros [[p m] c]. rewrite Ht2, Hnodes, (Ht p m c). tauto.
Qed.

Lemma make_subgraph_idempotent_witness :
  ∃ r g' r2 r',
    make_subgraph_related_to scenario_A_graph ["Y"] true = Some (r, g') ∧
    make_subgraph_related_to r ["Y"] true = Some (r2, r') ∧
    actors r2 = actors r ∧
    (∀ p c, edge_labels r2 p c = edge_labels r p c) ∧
    (∀ c, dd_val (reverse_edges r2) c = dd_val (reverse_edges r) c) ∧
    (∀ e, e ∈ iter_edges r2 ↔ e ∈ iter_edges r).
Proof.
  apply (make_subgraph_idempotent scenario_A_graph ["Y"] true). apply produced_construct.
Defined.

(** ** The graph export of the command *)

(** The [--as-graph] branch of [cli]: the text printed for the actors of
    the repository, the entities of [--only-related-to] and the [--tight]
    flag.  [print] ends the text with a line break. *)
Definition graph_export (actor_definitions : list ActorDefinition)
    (only_related_to : list string) (tight : bool) : option string :=
  let graph := construct_graph_from_actors actor_definitions in
  graph' ← match only_related_to with
           | [] => Some graph
           | _ :: _ => fst <$> make_subgraph_related_to graph only_related_to tight
           end;
  Some (into_dot graph' +:+ nl).

Lemma no_seed_extraction (g : RepositoryGraph) (ents : list string) (tight : bool) :
  (∀ e, e ∈ ents → ¬ (e ∈ actors g) ∧ ∀ p c, ¬ ((p, e, c) ∈ iter_edges g)) →
  make_subgraph_related_to g ents tight = Some (new_graph, g).
Proof.
  intros Hno. destruct (collect_actors_spec g ents) as [HF HB].
  assert ((_collect_actors_for_entities g ents).1 = ∅) as EF.
  { apply elem_of_equiv_empty_L. intros x Hx.
    apply HF in Hx as (e & He & [[Ha _]|[_ [p Hp]]]); destruct (Hno e He) as [Hna Hne].
    - done.
    - apply (Hne p x). by apply elem_of_iter_edges. }
  assert ((_collect_actors_for_entities g ents).2 = ∅) as EB.
  { apply elem_of_equiv_empty_L. intros x Hx.
    apply HB in Hx as (e & He & [[Ha _]|[_ [c Hc]]]); destruct (Hno e He) as [Hna Hne].
    - done.
    - apply (Hne x c). by apply elem_of_iter_edges. }
  unfold make_subgraph_related_to, seen_actors_for.
  destruct (_collect_actors_for_entities g ents) as [F B]. simpl in EF, EB. subst F B.
  destruct (scans_from_no_seed g) as (Ef & Eb & Ed).
  destruct tight.
  - rewrite Ef. simpl. rewrite Eb. simpl.
    by rewrite (left_id_L ∅ (∪)), restrict_to_empty.
  - rewrite (left_id_L ∅ (∪)), Ed. simpl. by rewrite restrict_to_empty.
Qed.

(** X19.  The graph export always prints a text, the rendering of a graph
    whose nodes and edges are among those of the graph built from the
    actors.  Without entities it renders the whole built graph; with
    entities none of which is a node or a label of the built graph it
    renders the graph without nodes and edges. *)
Theorem graph_export_renders_subgraph
    (defs : list ActorDefinition) (ents : list string) (tight : bool) :
  ∃ graph,
    graph_export defs ents tight = Some (into_dot graph +:+ nl) ∧
    produced graph ∧
    actors graph ⊆ actors (construct_graph_from_actors defs) ∧
    (∀ e, e ∈ iter_edges graph → e ∈ iter_edges (construct_graph_from_actors defs)) ∧
    (ents = [] → graph = construct_graph_from_actors defs) ∧
    (ents ≠ [] →
     (∀ e, e ∈ ents → ¬ (e ∈ actors (construct_graph_from_actors defs)) ∧
                      ∀ p c, ¬ ((p, e, c) ∈ iter_edges (construct_graph_from_actors defs))) →
     graph = new_graph).
Proof.
  unfold graph_export. destruct ents as [|e0 ents].
  - exists (construct_graph_from_actors defs). split; [done|].
    split; [apply produced_construct|]. split; [done|]. split; [done|]. split; done.
  - destruct (extracted_subgraph (construct_graph_from_actors defs) (e0 :: ents) tight
                (produced_construct defs)) as (r & g' & E & Hn & He).
    exists r. rewrite E. simpl. split; [done|].
    split; [by eapply produced_subgraph; [apply produced_construct|]|].
    split; [done|]. split; [done|]. split; [done|].
    intros _ Hno.
    pose proof (no_seed_extraction
                  (construct_graph_from_actors defs) (e0 :: ents) tight Hno) as E'.
    congruence.
Qed.

(** ** The grouped listing *)

Section print_group.
Context {A : Type}.
(** [name_resolver(item)], and [path_resolver(item, False)]. *)
Variable name_resolver : A → string.
Variable path_resolver : A → string.

(** [sorted(items, key=name_resolver)].  The built-in sort is stable and
    compares the keys as strings; the list it returns is determined by
    that, and is computed here by insertion: an item goes before the first
    item whose name is not smaller than its own. *)
Fixpoint insert_by_name (item : A) (sorted_items : list A) : list A :=
  match sorted_items with
  | [] => [item]
  | other :: rest =>
    if String.leb (name_resolver item) (name_resolver other) then item :: other :: rest
    else other :: insert_by_name item rest
  end.

Definition sorted_by_name (items : list A) : list A := foldr insert_by_name [] items.

(** ['{name:<35}'.format(name=s)]: [s] followed by spaces up to 35
    characters, never cut.  Widths count the characters of the string. *)
Definition ljust (s : string) (width : nat) : string :=
  s +:+ String.string_of_list_ascii (replicate (width - String.length s) (Ascii.ascii_of_nat 32)).

(** One written line of the loop. *)
Definition group_line (item : A) : string :=
  "   - " +:+ ljust (name_resolver item) 35 +:+ " " +:+ path_resolver item +:+ nl.

(** [_print_group]: the text written to [sys.stdout]. *)
Definition _print_group (name : string) (items : list A) : string :=
  (name +:+ "(" +:+ pretty (length items) +:+ "):" +:+ nl) +:+
  String.concat "" (group_line <$> sorted_by_name items) +:+
  nl.






End print_group.

Example print_group_example :
  _print_group id (λ _, "p") "Tags" ["b"; "a"] =
  "Tags(2):" +:+ nl +:+
  "   - a                                   p" +:+ nl +:+
  "   - b                                   p" +:+ nl +:+ nl.
Proof. vm_compute. reflexivity. Qed.

(** ** The extracted nodes, in terms of edges *)

(** The forward seeds of an entity list: the entities that are nodes, and
    the targets of the edges labelled by an entity that is not a node. *)
Definition forward_seed (g : RepositoryGraph) (ents : list string) (s : string) : Prop :=
  ∃ e, e ∈ ents ∧ ((e ∈ actors g ∧ s = e) ∨
                   (¬ (e ∈ actors g) ∧ ∃ p, (p, e, s) ∈ iter_edges g)).

(** The backward seeds: the entities that are nodes, and the sources of the
    edges labelled by an entity that is not a node. *)
Definition backward_seed (g : RepositoryGraph) (ents : list string) (s : string) : Prop :=
  ∃ e, e ∈ ents ∧ ((e ∈ actors g ∧ s = e) ∨
                   (¬ (e ∈ actors g) ∧ ∃ c, (s, e, c) ∈ iter_edges g)).

(** X22.  What extraction keeps, on a graph produced by the public
    operations.  In tight mode the nodes of the extracted graph are the
    names reachable along edges from a forward seed together with the names
    from which a backward seed is reachable.  In loose mode they are the
    names connected to a seed of either kind by edges taken in either
    direction. *)
Theorem make_subgraph_nodes_by_edges (g : RepositoryGraph) (ents : list string) :
  produced g →
  (∃ r g', make_subgraph_related_to g ents true = Some (r, g') ∧
     ∀ a, a ∈ actors r ↔
          (∃ s, forward_seed g ents s ∧ rtc (edge g) s a) ∨
          (∃ s, backward_seed g ents s ∧ rtc (edge g) a s)) ∧
  (∃ r g', make_subgraph_related_to g ents false = Some (r, g') ∧
     ∀ a, a ∈ actors r ↔
          ∃ s, (forward_seed g ents s ∨ backward_seed g ents s) ∧
               rtc (λ x y, edge g x y ∨ edge g y x) s a).
Proof.
  intros Hp. destruct (produced_steps g Hp) as [Hf Hb].
  destruct (collect_actors_spec g ents) as [HF HB].
  assert (∀ s, s ∈ (_collect_actors_for_entities g ents).1 ↔ forward_seed g ents s) as HF'.
  { intros s. rewrite HF. unfold forward_seed. by setoid_rewrite elem_of_iter_edges. }
  assert (∀ s, s ∈ (_collect_actors_for_entities g ents).2 ↔ backward_seed g ents s) as HB'.
  { intros s. rewrite HB. unfold backward_seed. by setoid_rewrite elem_of_iter_edges. }
  clear HF HB. split.
  - destruct (make_subgraph_result g ents true) as (r & g' & E & _ & HS & _).
    exists r, g'. split; [done|]. intros a. rewrite HS. unfold seen_in_mode.
    destruct (_collect_actors_for_entities g ents) as [F B]. simpl in HF', HB'.
    rewrite (reach_rtc (forward_nbrs g) (edge g) F a)
      by (intros x y; rewrite elem_of_forward_nbrs; apply Hf).
    rewrite (reach_rtc (backward_nbrs g) (flip (edge g)) B a)
      by (intros x y; rewrite elem_of_backward_nbrs; apply Hb).
    setoid_rewrite HF'. setoid_rewrite HB'.
    split; (intros [H|(s & Hs & Hrtc)]; [by left | right; exists s; split; [done|]]);
      by apply rtc_flip_iff.
  - destruct (make_subgraph_result g ents false) as (r & g' & E & _ & HS & _).
    exists r, g'. split; [done|]. intros a. rewrite HS. unfold seen_in_mode.
    destruct (_collect_actors_for_entities g ents) as [F B]. simpl in HF', HB'.
    rewrite (reach_rtc (dfs_nbrs g) (λ x y, edge g x y ∨ edge g y x) (F ∪ B) a)
      by (intros x y; rewrite elem_of_dfs_nbrs; unfold forward_step, backward_step in *;
          by rewrite Hf, Hb).
    setoid_rewrite elem_of_union. setoid_rewrite HF'. by setoid_rewrite HB'.
Qed.

Lemma make_subgraph_nodes_by_edges_witness :
  ∃ r g', make_subgraph_related_to scenario_A_graph ["B"] true = Some (r, g') ∧
     ∀ a, a ∈ actors r ↔
          (∃ s, forward_seed scenario_A_graph ["B"] s ∧ rtc (edge scenario_A_graph) s a) ∨
          (∃ s, backward_seed scenario_A_graph ["B"] s ∧ rtc (edge scenario_A_graph) a s).
Proof.
  apply (make_subgraph_nodes_by_edges scenario_A_graph ["B"]). apply produced_construct.
Defined.
